(** * FlappySGD: the frame loop of [Source.cpp], embedded and verified

    The program is a single [main] with a [for] loop; one iteration is one
    frame.  The embedding keeps the order of the source: spawn, events and
    keyboard, integration, border check, wall loop (move and collide), then the
    render phase that recomputes every [DestRect].

    Numbers are modelled as the source has them:
    - [double] and [float] are IEEE 754 binary64 and binary32, through the
      executable specification of [SpecFloat] (round to nearest even);
    - [int] is a [Z] with the 32-bit two's complement wrap-around written out
      on every addition;
    - a [(int)] cast of a [double] truncates toward zero and has no result
      when the truncated value is not an [int] (C++ leaves it undefined);
    - storage that the source never assigns before reading it (the [DestRect]
      of a fresh [GameObject]) holds a value chosen by the environment. *)

From Stdlib Require Import ZArith List Bool Lia Sorted.
From Stdlib Require Import Floats.SpecFloat.
From Stdlib Require String.
Import ListNotations.

#[local] Open Scope Z_scope.
#[local] Open Scope bool_scope.

(** ** Machine numbers *)

Module Int.

Definition min_signed : Z := - 2 ^ 31.
Definition max_signed : Z := 2 ^ 31 - 1.

Definition in_range (z : Z) : bool := (min_signed <=? z) && (z <=? max_signed).

(** Two's complement reduction into [min_signed .. max_signed]. *)
Definition wrap (z : Z) : Z := (z + 2 ^ 31) mod 2 ^ 32 - 2 ^ 31.

Definition add (a b : Z) : Z := wrap (a + b).

(** [/] on [int] truncates toward zero. *)
Definition div (a b : Z) : Z := Z.quot a b.

End Int.

Module Double.

Definition t : Type := spec_float.

Definition prec : Z := 53.
Definition emax : Z := 1024.

Definition add : t -> t -> t := SFadd prec emax.
Definition sub : t -> t -> t := SFsub prec emax.
Definition mul : t -> t -> t := SFmul prec emax.
Definition div : t -> t -> t := SFdiv prec emax.
Definition neg : t -> t := SFopp.

(** [a < b] and [a > b]; both are false as soon as one side is a NaN. *)
Definition lt (a b : t) : bool :=
  match SFcompare a b with Some Lt => true | _ => false end.
Definition gt (a b : t) : bool :=
  match SFcompare a b with Some Gt => true | _ => false end.

(** Conversion of an [int] (always exact for 32-bit values). *)
Definition of_int (z : Z) : t := binary_normalize prec emax z 0 false.

(** The integer part of a finite value, rounding toward zero. *)
Definition trunc (d : t) : option Z :=
  match d with
  | S754_zero _ => Some 0
  | S754_finite s m e => Some (cond_Zopp s (Z.shiftl (Zpos m) e))
  | S754_infinity _ | S754_nan => None
  end.

(** The cast [(int)d]. *)
Definition to_int (d : t) : option Z :=
  match trunc d with
  | Some z => if Int.in_range z then Some z else None
  | None => None
  end.

(** The literal [0.5]. *)
Definition half : t := S754_finite false 4503599627370496 (-53).

(** *** What a [double] denotes

    The definitions below are not part of the program; they give the values
    the program computes with a meaning in the integers. *)

(** The representation invariant of a binary64 datum. *)
Definition valid (d : t) : bool := valid_binary prec emax d.

(** Every finite binary64 value is a whole number of units of 2^-1074. *)
Definition units (d : t) : option Z :=
  match d with
  | S754_zero _ => Some 0
  | S754_finite s m e => Some (cond_Zopp s (Zpos m * 2 ^ (e + 1074)))
  | S754_infinity _ | S754_nan => None
  end.

(** [dyadic k e] is the [double] nearest to [k * 2^e]; it is that number
    itself when [k] has at most 53 bits and [e] is moderate. *)
Definition dyadic (k e : Z) : t := binary_normalize prec emax k e false.

(** [p * 2^n] on [positive]. *)
Definition shiftp (p : positive) (n : Z) : positive :=
  match n with Zpos k => Pos.iter xO p k | _ => p end.

End Double.

Module Single.

Definition t : Type := spec_float.

Definition prec : Z := 24.
Definition emax : Z := 128.

Definition add : t -> t -> t := SFadd prec emax.

Definition gt (a b : t) : bool :=
  match SFcompare a b with Some Gt => true | _ => false end.

Definition of_int (z : Z) : t := binary_normalize prec emax z 0 false.

(** Rounding a [double] to [float], as an assignment to a [float] does. *)
Definition of_double (d : Double.t) : t :=
  match d with
  | S754_finite s m e => binary_round prec emax s m e
  | _ => d
  end.

(** Promotion of a [float] operand to [double] (exact). *)
Definition to_double (f : t) : Double.t :=
  match f with
  | S754_finite s m e => binary_round Double.prec Double.emax s m e
  | _ => f
  end.

End Single.

Definition double : Type := Double.t.
Definition float : Type := Single.t.

(** ** Data of the program *)

Definition SCREEN_WIDTH : Z := 800.
Definition SCREEN_HEIGHT : Z := 600.

(** [pos_t] is [std::array<double, 2>]; index 0 is [fst], index 1 is [snd]. *)
Definition pos_t : Type := (double * double)%type.

Definition pos_add (a b : pos_t) : pos_t :=
  (Double.add (fst a) (fst b), Double.add (snd a) (snd b)).
Definition pos_sub (a b : pos_t) : pos_t :=
  (Double.sub (fst a) (fst b), Double.sub (snd a) (snd b)).
Definition pos_mul (a b : pos_t) : pos_t :=
  (Double.mul (fst a) (fst b), Double.mul (snd a) (snd b)).
Definition pos_scale (a : pos_t) (b : double) : pos_t :=
  (Double.mul (fst a) b, Double.mul (snd a) b).

(** A [pos_t] written with [int] components, as in [{ -1, 0 }]. *)
Definition pos_of_ints (a b : Z) : pos_t := (Double.of_int a, Double.of_int b).

(** [SDL_Rect]: fields [x], [y], [w], [h], all [int]. *)
Record SDL_Rect : Type := mkRect { rx : Z; ry : Z; rw : Z; rh : Z }.

Record GameObject : Type := mkObject {
  Position : pos_t;
  Velocity : pos_t;
  Size : pos_t;
  DestRect : SDL_Rect
}.

Definition CheckCollision (a b : SDL_Rect) : bool :=
  let leftA := rx a in
  let rightA := Int.add (rx a) (rw a) in
  let topA := ry a in
  let bottomA := Int.add (ry a) (rh a) in
  let leftB := rx b in
  let rightB := Int.add (rx b) (rw b) in
  let topB := ry b in
  let bottomB := Int.add (ry b) (rh b) in
  if bottomA <=? topB then false
  else if topA >=? bottomB then false
  else if rightA <=? leftB then false
  else if leftA >=? rightB then false
  else true.

(** [GetWall] assigns three of the four members; [DestRect] keeps whatever
    the storage of the local [Wall] held, which is the argument [indet]. *)
Definition GetWall (indet : SDL_Rect) (Position Velocity Size : pos_t)
  : GameObject :=
  mkObject Position Velocity Size indet.

(** ** The state of [main] and what one frame receives from outside *)

(** The locals of [main] that the loop reads or writes.  [Score] is never
    touched after its initialisation and is left out. *)
Record Game : Type := mkGame {
  Player : GameObject;
  GameTime : float;
  Interval : float;
  Walls : list GameObject;
  GameLost : bool;
  FrameTime : Z;
  anim : SDL_Rect;
  game_active : bool;
  TextureWidth : Z;
  TextureHeight : Z;
  FrameWidth : Z;
  FrameHeight : Z
}.

(** What the collaborators hand to one iteration: whether the event queue
    held an [SDL_QUIT], the keyboard snapshot at [SDL_SCANCODE_UP], the two
    numbers the distributions would return if they were drawn, and the
    contents of the storage in which [GetWall] builds its two objects. *)
Record Env : Type := mkEnv {
  quit_event : bool;
  key_up : bool;
  rand_interval : Z;
  rand_pos : Z;
  indet_first : SDL_Rect;
  indet_second : SDL_Rect
}.

Definition rect_in_range (r : SDL_Rect) : bool :=
  Int.in_range (rx r) && Int.in_range (ry r)
  && Int.in_range (rw r) && Int.in_range (rh r).

(** [RandomInterval(3, 6)], [RandomPos(-150, 150)], and rectangles made of
    [int]s. *)
Definition env_ok (e : Env) : bool :=
  (3 <=? rand_interval e) && (rand_interval e <=? 6)
  && (-150 <=? rand_pos e) && (rand_pos e <=? 150)
  && rect_in_range (indet_first e) && rect_in_range (indet_second e).

(** [1 / 60.0]. *)
Definition DeltaTime : double :=
  Double.div (Double.of_int 1) (Double.of_int 60).

(** The state on entry to the loop.  [tw] and [th] are what
    [SDL_QueryTexture] reports for the player's sheet; [indet] is the
    unassigned [Player.DestRect]. *)
Definition init (tw th : Z) (indet : SDL_Rect) : Game :=
  let fw := Int.div tw 4 in
  {| Player := {| Position := pos_of_ints (Int.div SCREEN_WIDTH 4)
                                          (Int.div SCREEN_HEIGHT 2);
                  Velocity := pos_of_ints 0 0;
                  Size := pos_of_ints 32 32;
                  DestRect := indet |};
     GameTime := Single.of_int 0;
     Interval := Single.of_int 1;
     Walls := [];
     GameLost := false;
     FrameTime := 0;
     anim := mkRect 0 0 fw th;
     game_active := true;
     TextureWidth := tw;
     TextureHeight := th;
     FrameWidth := fw;
     FrameHeight := th |}.

(** ** The update half of a frame (lines 184-220) *)

(** [GameTime += DeltaTime]: the sum is formed in [double] and stored in a
    [float]. *)
Definition advance_time (t : float) : float :=
  Single.of_double (Double.add (Single.to_double t) DeltaTime).

(** The condition of the spawn [if], on the already advanced time. *)
Definition spawn_due (s : Game) : bool :=
  Single.gt (advance_time (GameTime s)) (Interval s).

(** The two [push_back]s, in their order. *)
Definition spawned_walls (e : Env) : list GameObject :=
  let pos := rand_pos e in
  [ GetWall (indet_first e)
      (Double.of_int 832, Double.add (Double.of_int 650) (Double.of_int pos))
      (pos_of_ints (-1) 0) (pos_of_ints 64 512);
    GetWall (indet_second e)
      (Double.of_int 832, Double.add (Double.of_int (-50)) (Double.of_int pos))
      (pos_of_ints (-1) 0) (pos_of_ints 64 512) ].

(** Lines 200-205. *)
Definition handle_input (up lost : bool) (p : GameObject) : GameObject :=
  if negb lost then
    if up then
      {| Position := (fst (Position p),
                      Double.sub (snd (Position p)) (Double.of_int 1));
         Velocity := (fst (Velocity p), Double.of_int (-8));
         Size := Size p;
         DestRect := DestRect p |}
    else p
  else p.

(** Lines 207-208. *)
Definition integrate (p : GameObject) : GameObject :=
  {| Position := pos_add (Position p) (Velocity p);
     Velocity := pos_add (Velocity p) (Double.of_int 0, Double.half);
     Size := Size p;
     DestRect := DestRect p |}.

(** The condition of line 211. *)
Definition out_of_band (p : GameObject) : bool :=
  Double.lt (snd (Position p))
            (Double.div (Double.neg (snd (Size p))) (Double.of_int 2))
  || Double.gt (snd (Position p))
               (Double.add (Double.of_int SCREEN_HEIGHT)
                           (Double.div (snd (Size p)) (Double.of_int 2))).

Definition move_wall (w : GameObject) : GameObject :=
  {| Position := pos_add (Position w) (Velocity w);
     Velocity := Velocity w;
     Size := Size w;
     DestRect := DestRect w |}.

(** The loop of lines 214-220 over the walls, front to back.  Besides the
    moved walls and the flag it returns, as ghost data, the argument pairs of
    the calls to [CheckCollision] in call order. *)
Fixpoint wall_loop (player : GameObject) (ws : list GameObject) (lost : bool)
  : list GameObject * bool * list (SDL_Rect * SDL_Rect) :=
  match ws with
  | [] => ([], lost, [])
  | wall :: rest =>
      let wall' := move_wall wall in
      let lost' :=
        if CheckCollision (DestRect wall') (DestRect player) then true
        else lost in
      let '(rest', lost'', calls) := wall_loop player rest lost' in
      (wall' :: rest', lost'', (DestRect wall', DestRect player) :: calls)
  end.

Definition walls_after_spawn (e : Env) (s : Game) : list GameObject :=
  if spawn_due s then Walls s ++ spawned_walls e else Walls s.

Definition player_after_physics (e : Env) (s : Game) : GameObject :=
  integrate (handle_input (key_up e) (GameLost s) (Player s)).

Definition lost_after_border (e : Env) (s : Game) : bool :=
  if out_of_band (player_after_physics e s) then true else GameLost s.

(** The argument pairs of this frame's collision checks. *)
Definition collision_calls (e : Env) (s : Game) : list (SDL_Rect * SDL_Rect) :=
  snd (wall_loop (player_after_physics e s) (walls_after_spawn e s)
                 (lost_after_border e s)).

Definition update (e : Env) (s : Game) : Game :=
  let GameTime' := advance_time (GameTime s) in
  let Interval' :=
    if spawn_due s
    then Single.add (Interval s) (Single.of_int (rand_interval e))
    else Interval s in
  let game_active' := if quit_event e then false else game_active s in
  let Player' := player_after_physics e s in
  let '(Walls', GameLost', _) :=
    wall_loop Player' (walls_after_spawn e s) (lost_after_border e s) in
  {| Player := Player';
     GameTime := GameTime';
     Interval := Interval';
     Walls := Walls';
     GameLost := GameLost';
     FrameTime := FrameTime s;
     anim := anim s;
     game_active := game_active';
     TextureWidth := TextureWidth s;
     TextureHeight := TextureHeight s;
     FrameWidth := FrameWidth s;
     FrameHeight := FrameHeight s |}.

(** ** The render half of a frame (lines 222-250) *)

(** The initialiser of a [DestRect]: four casts. *)
Definition rect_of (o : GameObject) : option SDL_Rect :=
  match
    Double.to_int (Double.sub (fst (Position o))
                              (Double.div (fst (Size o)) (Double.of_int 2))),
    Double.to_int (Double.sub (snd (Position o))
                              (Double.div (snd (Size o)) (Double.of_int 2))),
    Double.to_int (fst (Size o)),
    Double.to_int (snd (Size o))
  with
  | Some x, Some y, Some w, Some h => Some (mkRect x y w h)
  | _, _, _, _ => None
  end.

Definition place (o : GameObject) : option GameObject :=
  match rect_of o with
  | Some r => Some (mkObject (Position o) (Velocity o) (Size o) r)
  | None => None
  end.

(** The loop of lines 225-229. *)
Fixpoint place_walls (ws : list GameObject) : option (list GameObject) :=
  match ws with
  | [] => Some []
  | wall :: rest =>
      match place wall with
      | Some wall' =>
          match place_walls rest with
          | Some rest' => Some (wall' :: rest')
          | None => None
          end
      | None => None
      end
  end.

(** Lines 231-237 on the pair ([FrameTime], [anim.x]). *)
Definition animate (tw fw : Z) (ft ax : Z) : Z * Z :=
  let ft := Int.add ft 1 in
  if ft =? 5 then
    let ax := Int.add ax fw in
    (0, if ax >=? tw then 0 else ax)
  else (ft, ax).

Definition render (s : Game) : option Game :=
  match place_walls (Walls s) with
  | None => None
  | Some Walls' =>
      let '(FrameTime', x') :=
        animate (TextureWidth s) (FrameWidth s) (FrameTime s) (rx (anim s)) in
      match place (Player s) with
      | None => None
      | Some Player' =>
          Some {| Player := Player';
                  GameTime := GameTime s;
                  Interval := Interval s;
                  Walls := Walls';
                  GameLost := GameLost s;
                  FrameTime := FrameTime';
                  anim := mkRect x' (ry (anim s)) (rw (anim s)) (rh (anim s));
                  game_active := game_active s;
                  TextureWidth := TextureWidth s;
                  TextureHeight := TextureHeight s;
                  FrameWidth := FrameWidth s;
                  FrameHeight := FrameHeight s |}
      end
  end.

(** ** Frames and runs *)

(** One iteration of the loop body. *)
Definition frame (e : Env) (s : Game) : option Game := render (update e s).

(** The loop over a list of per-frame environments: an iteration starts only
    while [game_active] holds. *)
Fixpoint run (es : list Env) (s : Game) : option Game :=
  match es with
  | [] => Some s
  | e :: es' =>
      if game_active s && env_ok e then
        match frame e s with
        | Some s' => run es' s'
        | None => None
        end
      else None
  end.

(** [frames n s s']: the loop, entered in state [s], is in state [s'] after
    [n] complete iterations. *)
Inductive frames : nat -> Game -> Game -> Prop :=
| frames_O : forall s, frames 0 s s
| frames_S : forall n s s1 e s2,
    frames n s s1 ->
    game_active s1 = true -> env_ok e = true -> frame e s1 = Some s2 ->
    frames (S n) s s2.

Definition reachable (tw th : Z) (indet : SDL_Rect) (s : Game) : Prop :=
  exists n, frames n (init tw th indet) s.

(** An environment with no key, no quit and given draws. *)
Definition idle_env (interval pos : Z) (r1 r2 : SDL_Rect) : Env :=
  mkEnv false false interval pos r1 r2.

(** Concrete data used by the examples: a tap on the up key every 33 frames
    keeps the player inside the window. *)
Definition zero_rect : SDL_Rect := mkRect 0 0 0 0.
Definition far_rect : SDL_Rect := mkRect 7 7 7 7.

Definition tap_env (r1 r2 : SDL_Rect) (n : nat) : Env :=
  mkEnv false (Nat.eqb (n mod 33) 0) 3 0 r1 r2.

Definition tap_envs (n : nat) : list Env :=
  map (tap_env far_rect far_rect) (seq 0 n).

(** The state after [n] frames of tapping, for a 128x32 sheet. *)
Definition tapped (n : nat) : option Game :=
  run (tap_envs n) (init 128 32 zero_rect).

(** ** Auxiliary predicates *)

(** The test of line 217 for one wall. *)
Definition hits (player : GameObject) (w : GameObject) : bool :=
  CheckCollision (DestRect w) (DestRect player).

(** [same_body a b]: equal up to [DestRect]. *)
Definition same_body (a b : GameObject) : Prop :=
  Position a = Position b /\ Velocity a = Velocity b /\ Size a = Size b.

(** [placed a b]: [b] is [a] with its rectangle recomputed. *)
Definition placed (a b : GameObject) : Prop :=
  same_body a b /\ rect_of a = Some (DestRect b).

(** Every wall the program ever builds has this velocity and size. *)
Definition wall_shape (w : GameObject) : Prop :=
  Velocity w = pos_of_ints (-1) 0 /\ Size w = pos_of_ints 64 512.

(** What holds of every state the loop can be in. *)
Definition game_inv (tw : Z) (s : Game) : Prop :=
  fst (Position (Player s)) = Double.of_int 200 /\
  fst (Velocity (Player s)) = Double.of_int 0 /\
  Size (Player s) = pos_of_ints 32 32 /\
  Forall wall_shape (Walls s) /\
  TextureWidth s = tw /\ FrameWidth s = Int.div tw 4.

(** The state before the first spawn: 60 frames of tapping. *)
Definition before_first_spawn : Game :=
  match tapped 60 with
  | Some s => s
  | None => init 128 32 zero_rect
  end.

(** The frame of the first spawn, and the state it leaves. *)
Definition first_spawn_env : Env := tap_env far_rect far_rect 60.

Definition after_first_spawn : Game :=
  match frame first_spawn_env before_first_spawn with
  | Some s => s
  | None => before_first_spawn
  end.

(** Holding the up key from the start carries the player through the top
    border in the 36th frame; gravity then brings it back. *)
Definition hold_env : Env := mkEnv false true 3 0 far_rect far_rect.

Definition last_frame_inside : Game :=
  match run (repeat hold_env 35) (init 128 32 zero_rect) with
  | Some s => s
  | None => init 128 32 zero_rect
  end.

Definition flown_out : Game :=
  match frame hold_env last_frame_inside with
  | Some s => s
  | None => last_frame_inside
  end.

Definition fallen_back : Game :=
  match run (repeat hold_env 34) flown_out with
  | Some s => s
  | None => flown_out
  end.

(** The player's vertical position and velocity are the whole numbers of
    halves [k/2] and [j/2]. *)
Definition on_grid (p : GameObject) (k j : Z) : Prop :=
  snd (Position p) = Double.dyadic k (-1) /\
  snd (Velocity p) = Double.dyadic j (-1).

(** While the game is not lost the player is inside the window, on the grid
    of halves, with a bounded velocity. *)
Definition alive_inv (s : Game) : Prop :=
  GameLost s = false ->
  exists k j, on_grid (Player s) k j /\ -32 <= k <= 1232 /\ -16 <= j <= 1267.

(** A spawn frame in which the storage of the first new wall happens to
    hold the player's rectangle. *)
Definition overlapping_env : Env :=
  mkEnv false false 3 0 (DestRect (Player before_first_spawn)) far_rect.

(** Twenty frames with a sheet that is 5 wide. *)
Definition sheet5_after_20 : option Game :=
  run (tap_envs 20) (init 5 32 zero_rect).

(** The state a computation ends in, or [default] when it has none. *)
Definition or_else (o : option Game) (default : Game) : Game :=
  match o with
  | Some s => s
  | None => default
  end.

(** A run in which the first pair is spawned with offset 150, so that the
    tapping player is above its gap when the pair arrives.  After 644 frames
    the pair's rectangles, drawn at x = 216, touch the player's column without
    overlapping it; the frame then moves the pair to where its rectangles
    would overlap. *)
Definition high_gap_env (n : nat) : Env :=
  mkEnv false (Nat.eqb (n mod 33) 0) 3 150 far_rect far_rect.

Definition lag_prev : Game :=
  or_else (run (map high_gap_env (seq 0 643)) (init 128 32 zero_rect))
          (init 128 32 zero_rect).

Definition lag_state : Game :=
  or_else (frame (high_gap_env 643) lag_prev) lag_prev.

Definition lag_next : Game :=
  or_else (frame (high_gap_env 644) lag_state) lag_state.

(** What a collision test on the rectangles of the positions this frame's
    update produces would answer. *)
Definition boxes_now_hit (e : Env) (s : Game) : bool :=
  existsb (fun w =>
             match rect_of w, rect_of (Player (update e s)) with
             | Some a, Some b => CheckCollision a b
             | _, _ => false
             end)
          (Walls (update e s)).

(** ** Further notions used in the properties *)

(** The pixel [(px, py)] belongs to [r]: the left and top edges are part of
    the rectangle, the right and bottom edges are not. *)
Definition inside (r : SDL_Rect) (px py : Z) : Prop :=
  rx r <= px < rx r + rw r /\ ry r <= py < ry r + rh r.

(** The sums [x + w] and [y + h] do not overflow. *)
Definition no_overflow (r : SDL_Rect) : Prop :=
  Int.in_range (rx r + rw r) = true /\ Int.in_range (ry r + rh r) = true.

(** A wall spawned at height [y] and moved [a] times, with the rectangle the
    render phase then gives it. *)
Definition wall_aged (a y : Z) : GameObject :=
  mkObject (Double.of_int (832 - a), Double.of_int y)
           (pos_of_ints (-1) 0) (pos_of_ints 64 512)
           (mkRect (800 - a) (y - 256) 64 512).

(** The pair spawned with offset [snd ap], [fst ap] frames old. *)
Definition pair_aged (ap : Z * Z) : list GameObject :=
  [ wall_aged (fst ap) (650 + snd ap); wall_aged (fst ap) (-50 + snd ap) ].

(** The wall list of a history of spawns, given as (age, offset), oldest
    first. *)
Definition walls_of (l : list (Z * Z)) : list GameObject :=
  flat_map pair_aged l.

(** Ages between 1 and [n], strictly decreasing along the list; offsets as
    the distribution gives them. *)
Definition history_ok (n : Z) (l : list (Z * Z)) : Prop :=
  Forall (fun ap => 1 <= fst ap <= n /\ -150 <= snd ap <= 150) l /\
  StronglySorted (fun p q => fst q < fst p) l.

(** One more frame: every pair is a frame older, and a spawn adds a pair of
    age 1 at the end. *)
Definition history_step (spawn : bool) (pos : Z) (l : list (Z * Z))
  : list (Z * Z) :=
  map (fun ap => (fst ap + 1, snd ap)) l ++ (if spawn then [(1, pos)] else []).



(** A state after 40 frames with a sheet that is 10 wide. *)
Definition sheet10_after_40 : Game :=
  match run (tap_envs 40) (init 10 32 zero_rect) with
  | Some s => s
  | None => init 10 32 zero_rect
  end.

(** ** Start-up (lines 10-67 and 147-155)

    The functions that run before the loop only call the libraries and test
    what they return.  A library call is recorded in a trace; what it returns
    is given by a [Library].  The deleter of a [shared_ptr] that dies when
    its function returns is a call like any other ([SDL_FreeSurface] of the
    local [bitmap]); the pointers a function returns live on in [main].  A
    [throw] ends the computation with the text of the exception, and the
    trace ends there: nothing catches the exception, and whether destructors
    still run before the program is terminated is left to the
    implementation. *)

Module Startup.

Import String.
#[local] Open Scope string_scope.

Inductive call : Type :=
| SDL_Init
| SDL_CreateWindow (title : string) (width height : Z)
| SDL_CreateRenderer
| IMG_Load (fname : string)
| SDL_CreateTextureFromSurface
| TTF_Init
| TTF_OpenFont (file : string) (size : Z)
| TTF_RenderText_Solid (text : string) (r g b : Z)
| SDL_FreeSurface
| SDL_GetError
| SDL_Quit.

(** What the libraries answer.  A texture creation is asked about by the
    file, or the text, its surface came from; text rendering is asked about
    with whether the font it is handed is a font or a null pointer. *)
Record Library : Type := mkLibrary {
  init_video : bool;
  create_window : bool;
  create_renderer : bool;
  load_image : string -> bool;
  create_texture : string -> bool;
  init_ttf : bool;
  open_font : bool;
  render_text : bool -> bool;
  get_error : string
}.

Inductive outcome (A : Type) : Type :=
| Returned (a : A)
| Thrown (what : string).

Arguments Returned {A} a.
Arguments Thrown {A} what.

(** A computation: the calls it made, and how it ended. *)
Definition M (A : Type) : Type := (list call * outcome A)%type.

Definition ret {A} (a : A) : M A := ([], Returned a).

Definition bind {A B} (m : M A) (f : A -> M B) : M B :=
  match m with
  | (t, Returned a) => let '(t', r) := f a in ((t ++ t')%list, r)
  | (t, Thrown w) => (t, Thrown w)
  end.

Definition do (c : call) : M unit := ([c], Returned tt).

Notation "m1 ;; m2" := (bind m1 (fun _ => m2))
  (at level 61, right associativity).

(** The lambda [ErrThrow]: build the text, call [SDL_Quit], throw. *)
Definition ErrThrow {A} (lib : Library) (e : string) : M A :=
  ([SDL_GetError; SDL_Quit], Thrown (e ++ " : " ++ get_error lib)).

(** [if (failed) ErrThrow(e);] *)
Definition check (lib : Library) (ok : bool) (e : string) : M unit :=
  if ok then ret tt else ErrThrow lib e.

Definition InitWindows (lib : Library) (width height : Z) : M unit :=
  do SDL_Init ;;
  check lib (init_video lib) "SDL_InitVideo" ;;
  do (SDL_CreateWindow "FlappySGD" width height) ;;
  check lib (create_window lib) "SDL_CreateWindow".

Definition InitRenderer (lib : Library) : M unit :=
  do SDL_CreateRenderer ;;
  check lib (create_renderer lib) "SDL_CreateRenderer".

(** On return the local [bitmap] is destroyed, which frees the surface. *)
Definition LoadTexture (lib : Library) (fname : string) : M unit :=
  do (IMG_Load fname) ;;
  check lib (load_image lib fname) "IMG_Load" ;;
  do SDL_CreateTextureFromSurface ;;
  check lib (create_texture lib fname) "SDL_CreateTextureFromSurface" ;;
  do SDL_FreeSurface.

(** The result of [TTF_OpenFont] is used without a test.  On return the
    local [bitmap] is destroyed, which frees the surface. *)
Definition ShowText (lib : Library) (textureText : string) (size : Z)
                    (r g b : Z) : M unit :=
  do TTF_Init ;;
  check lib (init_ttf lib) "TTF_Init" ;;
  do (TTF_OpenFont "Starjedi.ttf" size) ;;
  do (TTF_RenderText_Solid textureText r g b) ;;
  check lib (render_text lib (open_font lib)) "Font" ;;
  do SDL_CreateTextureFromSurface ;;
  check lib (create_texture lib textureText)
        "SDL_CreateTextureFromSurfaceFont" ;;
  do SDL_FreeSurface.

(** Lines 147-155 of [main]. *)
Definition startup (lib : Library) : M unit :=
  InitWindows lib SCREEN_WIDTH SCREEN_HEIGHT ;;
  InitRenderer lib ;;
  LoadTexture lib "bg.png" ;;
  LoadTexture lib "ptok.png" ;;
  LoadTexture lib "pipe.png" ;;
  ShowText lib "You lose!" 50 255 0 0.

(** The calls of a start-up in which nothing fails. *)
Definition full_trace : list call :=
  [ SDL_Init; SDL_CreateWindow "FlappySGD" 800 600; SDL_CreateRenderer;
    IMG_Load "bg.png"; SDL_CreateTextureFromSurface; SDL_FreeSurface;
    IMG_Load "ptok.png"; SDL_CreateTextureFromSurface; SDL_FreeSurface;
    IMG_Load "pipe.png"; SDL_CreateTextureFromSurface; SDL_FreeSurface;
    TTF_Init; TTF_OpenFont "Starjedi.ttf" 50;
    TTF_RenderText_Solid "You lose!" 255 0 0;
    SDL_CreateTextureFromSurface; SDL_FreeSurface ].


(** Every answer the start-up asks for is a success. *)
Definition all_ok (lib : Library) : bool :=
  init_video lib && create_window lib && create_renderer lib
  && load_image lib "bg.png" && create_texture lib "bg.png"
  && load_image lib "ptok.png" && create_texture lib "ptok.png"
  && load_image lib "pipe.png" && create_texture lib "pipe.png"
  && init_ttf lib && render_text lib (open_font lib)
  && create_texture lib "You lose!".



End Startup.

(** A library in which every call succeeds. *)
Definition willing : Startup.Library :=
  Startup.mkLibrary true true true (fun _ => true) (fun _ => true) true true
                    (fun font => font) String.EmptyString.

(** Both coordinates are zeros or finite numbers. *)
Definition finite_pos (a : pos_t) : Prop :=
  Double.units (fst a) <> None /\ Double.units (snd a) <> None.

(** Both coordinates are valid binary64 data. *)
Definition valid_pos (a : pos_t) : Prop :=
  Double.valid (fst a) = true /\ Double.valid (snd a) = true.

(** Neither coordinate is a NaN. *)
Definition no_nan (a : pos_t) : Prop :=
  fst a <> S754_nan /\ snd a <> S754_nan.

(** The comparison [==] of doubles on each coordinate: false on a NaN, true
    on zeros of either sign. *)
Definition pos_eq (a b : pos_t) : bool :=
  SFeqb (fst a) (fst b) && SFeqb (snd a) (snd b).

(** * Properties *)

(** ** Exact arithmetic on small dyadic values

    The program's numbers are halves and integers of a few digits.  On such
    values binary64 addition, subtraction and comparison are those of the
    integers; this section proves it from the definitions of [SpecFloat].
    The route: a valid datum compares like its number of units; rounding a
    mantissa that already fits is the identity up to normalisation
    ([binary_round_shift]); hence [dyadic k e] has an explicit canonical form,
    and sums and differences of two of them are again of that form. *)

Section Binary64.

#[local] Abbreviation shiftp := Double.shiftp.
#[local] Abbreviation dyadic := Double.dyadic.
#[local] Abbreviation digits p := (Zpos (digits2_pos p)).
#[local] Abbreviation bounded64 := (bounded 53 1024).
#[local] Abbreviation fexp64 := (fexp 53 1024).

Lemma digits2_pos_bounds m :
  2 ^ (digits m - 1) <= Zpos m < 2 ^ digits m.
Proof.
  induction m as [m IH | m IH |]; simpl digits2_pos.
  - rewrite Pos2Z.inj_succ.
    replace (Z.succ (digits m) - 1) with (Z.succ (digits m - 1)) by lia.
    rewrite !Z.pow_succ_r by lia. lia.
  - rewrite Pos2Z.inj_succ.
    replace (Z.succ (digits m) - 1) with (Z.succ (digits m - 1)) by lia.
    rewrite !Z.pow_succ_r by lia. lia.
  - simpl. lia.
Qed.

Lemma bounded_inv m e :
  bounded64 m e = true ->
  -1074 <= e <= 971 /\ digits m <= 53 /\
  (-1074 < e -> digits m = 53).
Proof.
  unfold bounded, canonical_mantissa, fexp, emin, Double.prec, Double.emax.
  intros H. apply andb_prop in H. destruct H as [Hc Hb].
  apply Z.eqb_eq in Hc. apply Z.leb_le in Hb. lia.
Qed.

Lemma scaled_lt m1 e1 m2 e2 :
  bounded64 m1 e1 = true ->
  bounded64 m2 e2 = true ->
  e1 < e2 ->
  Zpos m1 * 2 ^ (e1 + 1074) < Zpos m2 * 2 ^ (e2 + 1074).
Proof.
  intros H1 H2 Hlt.
  apply bounded_inv in H1. apply bounded_inv in H2.
  destruct H1 as (He1 & Hd1 & _). destruct H2 as (He2 & _ & Hd2).
  assert (-1074 < e2) as Hgt by lia. specialize (Hd2 Hgt).
  pose proof (digits2_pos_bounds m1) as [_ Hm1].
  pose proof (digits2_pos_bounds m2) as [Hm2 _].
  rewrite Hd2 in Hm2.
  assert (Zpos m1 < 2 ^ 53) as Hm1'.
  { eapply Z.lt_le_trans; [ exact Hm1 | ]. apply Z.pow_le_mono_r; lia. }
  assert (0 < 2 ^ (e1 + 1074)) as Hp1 by (apply Z.pow_pos_nonneg; lia).
  replace (e2 + 1074) with ((e1 + 1074) + (e2 - e1)) by lia.
  rewrite (Z.pow_add_r 2 (e1 + 1074) (e2 - e1)) by lia.
  assert (2 <= 2 ^ (e2 - e1)) as Hp2.
  { change 2 with (2 ^ 1) at 1. apply Z.pow_le_mono_r; lia. }
  change (53 - 1) with 52 in Hm2.
  apply Z.lt_le_trans with (2 ^ 53 * 2 ^ (e1 + 1074)).
  - apply Z.mul_lt_mono_pos_r; assumption.
  - change (2 ^ 53) with (2 ^ 52 * 2). rewrite <- Z.mul_assoc.
    apply Z.mul_le_mono_nonneg; try lia.
    rewrite Z.mul_comm. apply Z.mul_le_mono_nonneg_l; lia.
Qed.

Lemma scaled_pos m e : -1074 <= e -> 0 < Zpos m * 2 ^ (e + 1074).
Proof.
  intros He. apply Z.mul_pos_pos; [ lia | apply Z.pow_pos_nonneg; lia ].
Qed.

Lemma Some_inj {A} (x y : A) : Some x = Some y -> x = y.
Proof. congruence. Qed.

Lemma compare_units x y a b :
  Double.valid x = true -> Double.valid y = true ->
  Double.units x = Some a -> Double.units y = Some b ->
  SFcompare x y = Some (a ?= b).
Proof.
  destruct x as [sx | sx | | sx mx ex], y as [sy | sy | | sy my ey];
    unfold Double.valid; cbn [Double.units valid_binary SFcompare];
    try discriminate;
    intros Hx Hy Ha Hb;
    apply Some_inj in Ha; apply Some_inj in Hb; subst a b.
  - reflexivity.
  - pose proof (scaled_pos my ey ltac:(apply bounded_inv in Hy; lia)) as Hp.
    f_equal. destruct sy; cbn [cond_Zopp]; symmetry;
      [ apply Z.compare_gt_iff | apply Z.compare_lt_iff ]; lia.
  - pose proof (scaled_pos mx ex ltac:(apply bounded_inv in Hx; lia)) as Hp.
    f_equal. destruct sx; cbn [cond_Zopp]; symmetry;
      [ apply Z.compare_lt_iff | apply Z.compare_gt_iff ]; lia.
  - pose proof (scaled_pos mx ex ltac:(apply bounded_inv in Hx; lia)) as Hpx.
    pose proof (scaled_pos my ey ltac:(apply bounded_inv in Hy; lia)) as Hpy.
    f_equal. destruct sx, sy; cbn [cond_Zopp].
    + (* both negative *)
      destruct (Z.compare_spec ex ey) as [-> | Hlt | Hgt].
      * change (Pos.compare_cont Eq mx my) with (mx ?= my)%positive.
        rewrite Z.compare_opp.
        rewrite <- Zmult_compare_compat_r
          by (apply Z.lt_gt, Z.pow_pos_nonneg; apply bounded_inv in Hy; lia).
        change (Z.pos my ?= Z.pos mx) with (my ?= mx)%positive.
        symmetry. apply Pos.compare_antisym.
      * pose proof (scaled_lt _ _ _ _ Hx Hy Hlt).
        symmetry. apply Z.compare_gt_iff. lia.
      * pose proof (scaled_lt _ _ _ _ Hy Hx Hgt).
        symmetry. apply Z.compare_lt_iff. lia.
    + symmetry. apply Z.compare_lt_iff. lia.
    + symmetry. apply Z.compare_gt_iff. lia.
    + destruct (Z.compare_spec ex ey) as [-> | Hlt | Hgt].
      * change (Pos.compare_cont Eq mx my) with (mx ?= my)%positive.
        rewrite <- Zmult_compare_compat_r
          by (apply Z.lt_gt, Z.pow_pos_nonneg; apply bounded_inv in Hy; lia).
        reflexivity.
      * pose proof (scaled_lt _ _ _ _ Hx Hy Hlt).
        symmetry. apply Z.compare_lt_iff. lia.
      * pose proof (scaled_lt _ _ _ _ Hy Hx Hgt).
        symmetry. apply Z.compare_gt_iff. lia.
Qed.

Lemma iter_xO_Z p k : Zpos (Pos.iter xO p k) = Zpos p * 2 ^ Zpos k.
Proof.
  induction k as [| k IH] using Pos.peano_ind.
  - simpl. lia.
  - rewrite Pos.iter_succ, Pos2Z.inj_succ, Z.pow_succ_r by lia.
    rewrite Pos2Z.inj_xO, IH. lia.
Qed.

Lemma shiftp_Z p n : 0 <= n -> Zpos (shiftp p n) = Zpos p * 2 ^ n.
Proof.
  destruct n as [| k | k]; simpl Double.shiftp; intros Hn.
  - lia.
  - apply iter_xO_Z.
  - lia.
Qed.

Lemma iter_xO_digits p k :
  Zpos (digits2_pos (Pos.iter xO p k)) = digits p + Zpos k.
Proof.
  induction k as [| k IH] using Pos.peano_ind.
  - simpl. lia.
  - rewrite Pos.iter_succ. simpl digits2_pos. lia.
Qed.

Lemma shiftp_digits p n :
  0 <= n -> Zpos (digits2_pos (shiftp p n)) = digits p + n.
Proof.
  destruct n as [| k | k]; simpl Double.shiftp; intros Hn.
  - lia.
  - apply iter_xO_digits.
  - lia.
Qed.

Lemma shiftp_shiftp p a b :
  0 <= a -> 0 <= b -> shiftp (shiftp p a) b = shiftp p (a + b).
Proof.
  intros Ha Hb. apply Pos2Z.inj.
  rewrite !shiftp_Z by lia. rewrite Z.pow_add_r by lia. lia.
Qed.

Lemma iter_pos_iter {A} (f : A -> A) n x : iter_pos f n x = Pos.iter f x n.
Proof.
  revert x. induction n as [n IH | n IH |]; intros x; simpl.
  - rewrite !IH. rewrite !Pos.iter_swap. reflexivity.
  - rewrite !IH. reflexivity.
  - reflexivity.
Qed.

Lemma shr_exact m k :
  iter_pos shr_1 k (Build_shr_record (Zpos (Pos.iter xO m k)) false false) =
  Build_shr_record (Zpos m) false false.
Proof.
  rewrite iter_pos_iter.
  induction k as [| k IH] using Pos.peano_ind.
  - reflexivity.
  - rewrite Pos.iter_succ_r. rewrite Pos.iter_succ. simpl shr_1. exact IH.
Qed.

Lemma round_aux_exact s m E n :
  bounded64 m E = true -> 0 <= n ->
  binary_round_aux 53 1024 s (Zpos (shiftp m n)) (E - n) loc_Exact =
  S754_finite s m E.
Proof.
  intros Hb Hn.
  assert (fexp64 (digits m + E) = E /\ E <= 971) as [Hc HE].
  { unfold bounded, canonical_mantissa in Hb. apply andb_prop in Hb.
    destruct Hb as [Hc HE]. apply Z.eqb_eq in Hc. apply Z.leb_le in HE.
    split; [ exact Hc | exact HE ]. }
  unfold binary_round_aux.
  assert (shr_fexp 53 1024 (Zpos (shiftp m n)) (E - n) loc_Exact =
          (Build_shr_record (Zpos m) false false, E)) as ->.
  { unfold shr_fexp. cbn [Zdigits2 shr_record_of_loc].
    rewrite shiftp_digits by lia.
    replace (digits m + n + (E - n)) with (digits m + E) by lia.
    rewrite Hc. replace (E - (E - n)) with n by lia.
    destruct n as [| k | k]; cbn [shr Double.shiftp].
    - f_equal. lia.
    - rewrite shr_exact. f_equal. lia.
    - lia. }
  cbn [shr_m loc_of_shr_record round_nearest_even].
  assert (shr_fexp 53 1024 (Zpos m) E loc_Exact =
          (Build_shr_record (Zpos m) false false, E)) as ->.
  { unfold shr_fexp. cbn [Zdigits2 shr_record_of_loc].
    rewrite Hc, Z.sub_diag. reflexivity. }
  cbn [shr_m].
  replace (E <=? 1024 - 53) with true by (symmetry; apply Z.leb_le; lia).
  reflexivity.
Qed.

Lemma binary_round_shift s p t e :
  0 <= t ->
  fexp64 (digits p + e) <= e ->
  fexp64 (digits p + e) <= 971 ->
  binary_round 53 1024 s (shiftp p t) (e - t) =
  S754_finite s (shiftp p (e - fexp64 (digits p + e)))
              (fexp64 (digits p + e)).
Proof.
  intros Ht. set (E := fexp64 (digits p + e)). intros HEe HE.
  assert (bounded64 (shiftp p (e - E)) E = true) as Hb.
  { unfold bounded, canonical_mantissa. rewrite shiftp_digits by lia.
    replace (digits p + (e - E) + E) with (digits p + e) by lia.
    fold E. rewrite Z.eqb_refl. apply Z.leb_le. lia. }
  unfold binary_round. rewrite shiftp_digits by lia.
  replace (digits p + t + (e - t)) with (digits p + e) by lia.
  fold E. unfold shl_align.
  destruct (E - (e - t)) as [| k | k] eqn:Hk.
  - replace (shiftp p t) with (shiftp (shiftp p (e - E)) 0)
      by (cbn [Double.shiftp]; f_equal; lia).
    replace (e - t) with (E - 0) by lia.
    apply round_aux_exact; [ exact Hb | lia ].
  - replace (shiftp p t) with (shiftp (shiftp p (e - E)) (Zpos k))
      by (rewrite shiftp_shiftp by lia; f_equal; lia).
    replace (e - t) with (E - Zpos k) by lia.
    apply round_aux_exact; [ exact Hb | lia ].
  - replace (Pos.iter xO (shiftp p t) k) with (shiftp (shiftp p (e - E)) 0).
    + replace E with (E - 0) at 2 by lia.
      apply round_aux_exact; [ exact Hb | lia ].
    + change (shiftp (shiftp p (e - E)) 0) with (shiftp p (e - E)).
      change (Pos.iter xO (shiftp p t) k) with (shiftp (shiftp p t) (Zpos k)).
      rewrite shiftp_shiftp by lia. f_equal. lia.
Qed.

Lemma digits_small p : Zpos p < 2 ^ 53 -> digits p <= 53.
Proof.
  intros Hp. pose proof (digits2_pos_bounds p) as [Hlo _].
  destruct (Z.le_gt_cases (digits p) 53) as [H | H]; [ exact H | ].
  assert (2 ^ 53 <= 2 ^ (digits p - 1))
    by (apply Z.pow_le_mono_r; lia).
  lia.
Qed.

Lemma fexp_normal d e :
  1 <= d <= 53 -> -1021 <= e -> fexp64 (d + e) = d + e - 53.
Proof. intros Hd He. unfold fexp, emin. lia. Qed.

(** The canonical form of a small nonzero mantissa at exponent [e]. *)
Lemma binary_round_small s p t e :
  0 <= t -> Zpos p < 2 ^ 53 -> -1021 <= e <= 971 ->
  binary_round 53 1024 s (shiftp p t) (e - t) =
  S754_finite s (shiftp p (53 - digits p))
              (digits p + e - 53).
Proof.
  intros Ht Hp He. pose proof (digits_small p Hp) as Hd.
  assert (fexp64 (digits p + e) = digits p + e - 53)
    as HE by (apply fexp_normal; lia).
  rewrite binary_round_shift by (rewrite ?HE; lia).
  rewrite HE. f_equal. f_equal. lia.
Qed.

Lemma dyadic_pos p e :
  Zpos p < 2 ^ 53 -> -1021 <= e <= 971 ->
  dyadic (Zpos p) e =
  S754_finite false (shiftp p (53 - digits p))
              (digits p + e - 53).
Proof.
  intros Hp He. unfold Double.dyadic. cbn [binary_normalize].
  replace e with (e - 0) at 1 by lia.
  change p with (shiftp p 0) at 1.
  apply binary_round_small; lia.
Qed.

Lemma dyadic_neg p e :
  Zpos p < 2 ^ 53 -> -1021 <= e <= 971 ->
  dyadic (Zneg p) e =
  S754_finite true (shiftp p (53 - digits p))
              (digits p + e - 53).
Proof.
  intros Hp He. unfold Double.dyadic. cbn [binary_normalize].
  replace e with (e - 0) at 1 by lia.
  change p with (shiftp p 0) at 1.
  apply binary_round_small; lia.
Qed.

Lemma dyadic_shift k t e :
  0 <= t -> Z.abs k < 2 ^ 53 -> -1021 <= e <= 971 ->
  dyadic (k * 2 ^ t) (e - t) = dyadic k e.
Proof.
  intros Ht Hk He. destruct k as [| p | p].
  - reflexivity.
  - rewrite dyadic_pos by lia.
    rewrite <- shiftp_Z by lia. unfold Double.dyadic. cbn [binary_normalize].
    apply binary_round_small; lia.
  - rewrite dyadic_neg by lia.
    replace (Zneg p * 2 ^ t) with (Zneg (shiftp p t))
      by (rewrite <- Pos2Z.opp_pos, shiftp_Z by lia; lia).
    unfold Double.dyadic. cbn [binary_normalize].
    apply binary_round_small; lia.
Qed.

Lemma dyadic_form k e :
  k <> 0 -> Z.abs k < 2 ^ 53 -> -1021 <= e <= 971 ->
  exists m E,
    dyadic k e = S754_finite (k <? 0) m E /\
    -1074 <= E <= e /\
    cond_Zopp (k <? 0) (Zpos m) = k * 2 ^ (e - E) /\
    bounded64 m E = true.
Proof.
  intros Hk0 Hk He.
  assert (forall p, Zpos p < 2 ^ 53 ->
            let m := shiftp p (53 - digits p) in
            let E := digits p + e - 53 in
            -1074 <= E <= e /\ Zpos m = Zpos p * 2 ^ (e - E) /\
            bounded64 m E = true) as Hform.
  { intros p Hp m E. pose proof (digits_small p Hp) as Hd.
    assert (1 <= digits p) as Hd1 by lia.
    subst m E. repeat split; try lia.
    - rewrite shiftp_Z by lia. f_equal. f_equal. lia.
    - unfold bounded, canonical_mantissa. rewrite shiftp_digits by lia.
      replace (digits p + (53 - digits p)
               + (digits p + e - 53))
        with (digits p + e) by lia.
      rewrite fexp_normal by lia.
      apply andb_true_intro. split; [ apply Z.eqb_eq | apply Z.leb_le ]; lia. }
  destruct k as [| p | p]; [ congruence | | ].
  - destruct (Hform p ltac:(lia)) as (HE & Hm & Hb).
    eexists _, _. split; [ apply dyadic_pos; lia | ].
    split; [ exact HE | ]. split; [ exact Hm | exact Hb ].
  - destruct (Hform p ltac:(lia)) as (HE & Hm & Hb).
    eexists _, _. split; [ apply dyadic_neg; lia | ].
    split; [ exact HE | ]. split; [ | exact Hb ].
    cbn [Z.ltb Z.compare cond_Zopp]. rewrite Hm. lia.
Qed.

Lemma shl_align_Z mx ex ez :
  ez <= ex -> Zpos (fst (shl_align mx ex ez)) = Zpos mx * 2 ^ (ex - ez).
Proof.
  intros Hle. unfold shl_align.
  destruct (ez - ex) as [| d | d] eqn:Hd; cbn [fst].
  - replace (ex - ez) with 0 by lia. lia.
  - lia.
  - rewrite iter_xO_Z. f_equal. f_equal. lia.
Qed.

Lemma cond_Zopp_mul s a b : cond_Zopp s (a * b) = cond_Zopp s a * b.
Proof. destruct s; simpl; lia. Qed.

Lemma aligned k e mx ex ez s :
  cond_Zopp s (Zpos mx) = k * 2 ^ (e - ex) -> ez <= ex -> ex <= e ->
  cond_Zopp s (Zpos (fst (shl_align mx ex ez))) = k * 2 ^ (e - ez).
Proof.
  intros Hm H1 H2. rewrite shl_align_Z by lia.
  rewrite cond_Zopp_mul, Hm, <- Z.mul_assoc, <- Z.pow_add_r by lia.
  f_equal. f_equal. lia.
Qed.

Lemma add_dyadic k j e :
  Z.abs k < 2 ^ 53 -> Z.abs j < 2 ^ 53 -> Z.abs (k + j) < 2 ^ 53 ->
  -1021 <= e <= 971 ->
  Double.add (dyadic k e) (dyadic j e) = dyadic (k + j) e.
Proof.
  intros Hk Hj Hkj He.
  destruct (Z.eq_dec k 0) as [-> | Hk0].
  { rewrite Z.add_0_l.
    destruct (Z.eq_dec j 0) as [-> | Hj0]; [ reflexivity | ].
    destruct (dyadic_form j e Hj0 Hj He) as (m & E & -> & _).
    reflexivity. }
  destruct (Z.eq_dec j 0) as [-> | Hj0].
  { rewrite Z.add_0_r.
    destruct (dyadic_form k e Hk0 Hk He) as (m & E & -> & _).
    reflexivity. }
  destruct (dyadic_form k e Hk0 Hk He) as (mx & ex & -> & Hex & Hmx & _).
  destruct (dyadic_form j e Hj0 Hj He) as (my & ey & -> & Hey & Hmy & _).
  unfold Double.add. cbn [SFadd].
  rewrite (aligned k e mx ex) by (try assumption; lia).
  rewrite (aligned j e my ey) by (try assumption; lia).
  rewrite <- Z.mul_add_distr_r.
  set (ez := Z.min ex ey).
  replace ez with (e - (e - ez)) at 2 by lia.
  apply dyadic_shift; lia.
Qed.

Lemma sub_dyadic k j e :
  Z.abs k < 2 ^ 53 -> Z.abs j < 2 ^ 53 -> Z.abs (k - j) < 2 ^ 53 ->
  -1021 <= e <= 971 ->
  Double.sub (dyadic k e) (dyadic j e) = dyadic (k - j) e.
Proof.
  intros Hk Hj Hkj He.
  destruct (Z.eq_dec j 0) as [-> | Hj0].
  { rewrite Z.sub_0_r. destruct (Z.eq_dec k 0) as [-> | Hk0]; [ reflexivity | ].
    destruct (dyadic_form k e Hk0 Hk He) as (m & E & -> & _).
    reflexivity. }
  destruct (Z.eq_dec k 0) as [-> | Hk0].
  { destruct j as [| p | p]; [ congruence | | ].
    - rewrite dyadic_pos by lia. cbn [Z.sub Z.add Z.opp].
      rewrite dyadic_neg by lia. reflexivity.
    - rewrite dyadic_neg by lia. cbn [Z.sub Z.add Z.opp].
      rewrite dyadic_pos by lia. reflexivity. }
  destruct (dyadic_form k e Hk0 Hk He) as (mx & ex & -> & Hex & Hmx & _).
  destruct (dyadic_form j e Hj0 Hj He) as (my & ey & -> & Hey & Hmy & _).
  unfold Double.sub. cbn [SFsub].
  rewrite (aligned k e mx ex) by (try assumption; lia).
  rewrite (aligned j e my ey) by (try assumption; lia).
  rewrite <- Z.mul_sub_distr_r.
  set (ez := Z.min ex ey).
  replace ez with (e - (e - ez)) at 2 by lia.
  apply dyadic_shift; lia.
Qed.

Lemma dyadic_valid k e :
  Z.abs k < 2 ^ 53 -> -1021 <= e <= 971 -> Double.valid (dyadic k e) = true.
Proof.
  intros Hk He. destruct (Z.eq_dec k 0) as [-> | Hk0]; [ reflexivity | ].
  destruct (dyadic_form k e Hk0 Hk He) as (m & E & -> & _ & _ & Hb).
  exact Hb.
Qed.

Lemma dyadic_units k e :
  Z.abs k < 2 ^ 53 -> -1021 <= e <= 971 ->
  Double.units (dyadic k e) = Some (k * 2 ^ (e + 1074)).
Proof.
  intros Hk He. destruct (Z.eq_dec k 0) as [-> | Hk0]; [ reflexivity | ].
  destruct (dyadic_form k e Hk0 Hk He) as (m & E & -> & HE & Hm & _).
  cbn [Double.units]. f_equal.
  rewrite cond_Zopp_mul, Hm, <- Z.mul_assoc, <- Z.pow_add_r by lia.
  f_equal. f_equal. lia.
Qed.

Lemma compare_dyadic k j e :
  Z.abs k < 2 ^ 53 -> Z.abs j < 2 ^ 53 -> -1021 <= e <= 971 ->
  SFcompare (dyadic k e) (dyadic j e) = Some (k ?= j).
Proof.
  intros Hk Hj He.
  rewrite (compare_units _ _ _ _
             (dyadic_valid k e Hk He) (dyadic_valid j e Hj He)
             (dyadic_units k e Hk He) (dyadic_units j e Hj He)).
  f_equal. symmetry. apply Zmult_compare_compat_r.
  apply Z.lt_gt, Z.pow_pos_nonneg; lia.
Qed.

End Binary64.

(** ** Integer and rectangle facts *)

Lemma wrap_in_range z : Int.in_range z = true -> Int.wrap z = z.
Proof.
  unfold Int.in_range, Int.min_signed, Int.max_signed, Int.wrap.
  intros H. apply andb_prop in H. destruct H as [Hlo Hhi].
  apply Z.leb_le in Hlo. apply Z.leb_le in Hhi.
  rewrite Z.mod_small; lia.
Qed.

Lemma wrap_range z : Int.in_range (Int.wrap z) = true.
Proof.
  unfold Int.in_range, Int.min_signed, Int.max_signed, Int.wrap.
  pose proof (Z.mod_pos_bound (z + 2 ^ 31) (2 ^ 32) ltac:(lia)) as Hb.
  apply andb_true_intro. split; apply Z.leb_le; lia.
Qed.

Lemma add_no_overflow a b :
  Int.in_range (a + b) = true -> Int.add a b = a + b.
Proof. apply wrap_in_range. Qed.

(** The four early returns of [CheckCollision] as one conjunction. *)
Lemma CheckCollision_spec a b :
  CheckCollision a b = true <->
  Int.add (ry a) (rh a) > ry b /\ ry a < Int.add (ry b) (rh b) /\
  Int.add (rx a) (rw a) > rx b /\ rx a < Int.add (rx b) (rw b).
Proof.
  unfold CheckCollision.
  destruct (Z.leb_spec (Int.add (ry a) (rh a)) (ry b));
    [ split; [discriminate | lia] | ].
  destruct (Z.geb_spec (ry a) (Int.add (ry b) (rh b)));
    [ split; [discriminate | lia] | ].
  destruct (Z.leb_spec (Int.add (rx a) (rw a)) (rx b));
    [ split; [discriminate | lia] | ].
  destruct (Z.geb_spec (rx a) (Int.add (rx b) (rw b)));
    [ split; [discriminate | lia] | ].
  split; [ lia | reflexivity ].
Qed.

(** C5.  For all rectangles [a] and [b], [CheckCollision a b] is true exactly
    when bottomA > topB, topA < bottomB, rightA > leftB and leftA < rightB,
    all strict, the sides being the ones the function computes (left = x,
    right = x + w, top = y, bottom = y + h in [int] arithmetic, and in plain
    integers when the sums do not overflow).  Hence rectangles that merely
    touch (one's bottom is the other's top, or one's right is the other's
    left) do not collide, and the predicate is symmetric. *)
Theorem CheckCollision_strict_overlap :
  (forall a b,
     CheckCollision a b = true <->
     Int.add (ry a) (rh a) > ry b /\ ry a < Int.add (ry b) (rh b) /\
     Int.add (rx a) (rw a) > rx b /\ rx a < Int.add (rx b) (rw b)) /\
  (forall a b,
     Int.in_range (rx a + rw a) = true -> Int.in_range (ry a + rh a) = true ->
     Int.in_range (rx b + rw b) = true -> Int.in_range (ry b + rh b) = true ->
     (CheckCollision a b = true <->
      ry a + rh a > ry b /\ ry a < ry b + rh b /\
      rx a + rw a > rx b /\ rx a < rx b + rw b)) /\
  (forall a b,
     Int.add (ry a) (rh a) = ry b \/ Int.add (ry b) (rh b) = ry a \/
     Int.add (rx a) (rw a) = rx b \/ Int.add (rx b) (rw b) = rx a ->
     CheckCollision a b = false) /\
  (forall a b, CheckCollision a b = CheckCollision b a).
Proof.
  split; [ exact CheckCollision_spec | ].
  split.
  { intros a b Ha1 Ha2 Hb1 Hb2.
    rewrite CheckCollision_spec.
    rewrite !add_no_overflow by assumption. reflexivity. }
  split.
  { intros a b Htouch.
    destruct (CheckCollision a b) eqn:E; [ | reflexivity ].
    apply CheckCollision_spec in E. lia. }
  intros a b.
  destruct (CheckCollision a b) eqn:Eab, (CheckCollision b a) eqn:Eba;
    try reflexivity.
  - apply CheckCollision_spec in Eab.
    assert (CheckCollision b a = true) as H
        by (apply CheckCollision_spec; lia).
    congruence.
  - apply CheckCollision_spec in Eba.
    assert (CheckCollision a b = true) as H
        by (apply CheckCollision_spec; lia).
    congruence.
Qed.

Lemma CheckCollision_strict_overlap_witness :
  CheckCollision (mkRect 0 0 10 10) (mkRect 10 0 10 10) = false /\
  (CheckCollision (mkRect 0 0 10 10) (mkRect 9 9 10 10) = true <->
   0 + 10 > 9 /\ 0 < 9 + 10 /\ 0 + 10 > 9 /\ 0 < 9 + 10).
Proof.
  split.
  - apply (proj1 (proj2 (proj2 CheckCollision_strict_overlap))).
    right. right. left. reflexivity.
  - apply (proj1 (proj2 CheckCollision_strict_overlap)
             (mkRect 0 0 10 10) (mkRect 9 9 10 10)); reflexivity.
Defined.

(** ** The wall loop *)


Lemma wall_loop_spec player ws lost :
  wall_loop player ws lost =
  (map move_wall ws,
   lost || existsb (hits player) ws,
   map (fun w => (DestRect w, DestRect player)) ws).
Proof.
  revert lost. induction ws as [| w ws IH]; intros lost; simpl.
  - rewrite orb_false_r. reflexivity.
  - rewrite IH. unfold hits at 2. simpl.
    destruct (CheckCollision (DestRect w) (DestRect player)); simpl.
    + rewrite orb_true_r. reflexivity.
    + reflexivity.
Qed.

Lemma update_Player e s : Player (update e s) = player_after_physics e s.
Proof. unfold update. rewrite wall_loop_spec. reflexivity. Qed.

Lemma update_Walls e s :
  Walls (update e s) = map move_wall (walls_after_spawn e s).
Proof. unfold update. rewrite wall_loop_spec. reflexivity. Qed.

Lemma update_GameLost e s :
  GameLost (update e s) =
  lost_after_border e s
  || existsb (hits (player_after_physics e s)) (walls_after_spawn e s).
Proof. unfold update. rewrite wall_loop_spec. reflexivity. Qed.

Lemma update_anim e s :
  FrameTime (update e s) = FrameTime s /\ anim (update e s) = anim s /\
  TextureWidth (update e s) = TextureWidth s /\
  FrameWidth (update e s) = FrameWidth s.
Proof. unfold update. rewrite wall_loop_spec. simpl. auto. Qed.

Lemma collision_calls_spec e s :
  collision_calls e s =
  map (fun w => (DestRect w, DestRect (Player s))) (walls_after_spawn e s).
Proof.
  unfold collision_calls. rewrite wall_loop_spec. simpl.
  apply map_ext. intros w. f_equal.
  unfold player_after_physics, integrate, handle_input. simpl.
  destruct (negb (GameLost s)), (key_up e); reflexivity.
Qed.

(** ** The render phase keeps everything but the rectangles *)


Lemma place_placed a b : place a = Some b -> placed a b.
Proof.
  unfold place, placed, same_body.
  destruct (rect_of a) as [r |]; [ | discriminate ].
  intros H. injection H as <-. simpl. auto.
Qed.

Lemma place_walls_placed ws ws' :
  place_walls ws = Some ws' -> Forall2 placed ws ws'.
Proof.
  revert ws'. induction ws as [| w ws IH]; intros ws'; simpl.
  - intros H. injection H as <-. constructor.
  - destruct (place w) as [w' |] eqn:Ew; [ | discriminate ].
    destruct (place_walls ws) as [rest |]; [ | discriminate ].
    intros H. injection H as <-.
    constructor; [ apply place_placed; assumption | apply IH; reflexivity ].
Qed.

Lemma render_inv s s' :
  render s = Some s' ->
  placed (Player s) (Player s') /\ Forall2 placed (Walls s) (Walls s') /\
  GameLost s' = GameLost s /\ game_active s' = game_active s /\
  GameTime s' = GameTime s /\ Interval s' = Interval s /\
  TextureWidth s' = TextureWidth s /\ FrameWidth s' = FrameWidth s /\
  (FrameTime s', rx (anim s')) =
    animate (TextureWidth s) (FrameWidth s) (FrameTime s) (rx (anim s)).
Proof.
  unfold render.
  destruct (place_walls (Walls s)) as [ws' |] eqn:Ews; [ | discriminate ].
  destruct (animate _ _ _ _) as [ft' x'].
  destruct (place (Player s)) as [p' |] eqn:Ep; [ | discriminate ].
  intros H. injection H as <-. simpl.
  repeat split; auto using place_walls_placed.
  - apply place_placed in Ep. apply Ep.
  - apply place_placed in Ep. apply Ep.
  - apply place_placed in Ep. apply Ep.
  - apply place_placed in Ep. apply Ep.
Qed.

Lemma rect_of_same_body a b : same_body a b -> rect_of a = rect_of b.
Proof.
  intros (Hp & _ & Hs). unfold rect_of. rewrite Hp, Hs. reflexivity.
Qed.

(** ** Runs are frame sequences *)

Lemma frames_cons e s s1 n s2 :
  game_active s = true -> env_ok e = true -> frame e s = Some s1 ->
  frames n s1 s2 -> frames (S n) s s2.
Proof.
  intros Ha Ho Hf Hn. induction Hn as [s1 | n s1 t e' t' Hn IH Ha' Ho' Hf'].
  - eapply frames_S; eauto. constructor.
  - eapply frames_S; eauto.
Qed.

Lemma run_frames es s s' : run es s = Some s' -> frames (length es) s s'.
Proof.
  revert s. induction es as [| e es IH]; intros s; simpl.
  - intros H. injection H as <-. constructor.
  - destruct (game_active s) eqn:Ha; [ | discriminate ].
    destruct (env_ok e) eqn:Ho; [ | discriminate ]. simpl.
    destruct (frame e s) as [s1 |] eqn:Hf; [ | discriminate ].
    intros H. eapply frames_cons; eauto.
Qed.

Lemma frames_preserve (P : Game -> Prop) :
  (forall e s s', P s -> frame e s = Some s' -> P s') ->
  forall n s s', frames n s s' -> P s -> P s'.
Proof.
  intros Hstep n s s' Hn. induction Hn; eauto.
Qed.

Lemma reachable_init tw th indet : reachable tw th indet (init tw th indet).
Proof. exists 0%nat. constructor. Qed.

Lemma reachable_frame tw th indet e s s' :
  reachable tw th indet s ->
  game_active s = true -> env_ok e = true -> frame e s = Some s' ->
  reachable tw th indet s'.
Proof. intros [n Hn] Ha Ho Hf. exists (S n). eapply frames_S; eauto. Qed.

Lemma before_first_spawn_reachable :
  reachable 128 32 zero_rect before_first_spawn.
Proof.
  exists (length (tap_envs 60)). apply run_frames.
  vm_compute. reflexivity.
Qed.

(** ** The invariant *)

Lemma handle_input_fst up lost p :
  fst (Position (handle_input up lost p)) = fst (Position p) /\
  fst (Velocity (handle_input up lost p)) = fst (Velocity p) /\
  Size (handle_input up lost p) = Size p /\
  DestRect (handle_input up lost p) = DestRect p.
Proof. unfold handle_input. destruct lost, up; simpl; auto. Qed.

Lemma spawned_walls_shape e : Forall wall_shape (spawned_walls e).
Proof. repeat constructor. Qed.

Lemma walls_after_spawn_shape e s :
  Forall wall_shape (Walls s) -> Forall wall_shape (walls_after_spawn e s).
Proof.
  intros H. unfold walls_after_spawn. destruct (spawn_due s); [ | exact H ].
  apply Forall_app. split; [ exact H | apply spawned_walls_shape ].
Qed.

Lemma Forall2_placed_shape ws ws' :
  Forall2 placed ws ws' -> Forall wall_shape ws -> Forall wall_shape ws'.
Proof.
  induction 1 as [| w w' ws ws' Hw _ IH]; intros Hs; [ constructor | ].
  inversion Hs as [| ? ? Hw0 Hs0]; subst.
  constructor; [ | auto ].
  destruct Hw as ((_ & Hv & Hz) & _). destruct Hw0 as [Hv0 Hz0].
  split; congruence.
Qed.

Lemma game_inv_init tw th indet : game_inv tw (init tw th indet).
Proof. repeat split. constructor. Qed.

Lemma game_inv_frame tw e s s' :
  game_inv tw s -> frame e s = Some s' -> game_inv tw s'.
Proof.
  intros (Hx & Hvx & Hsz & Hws & Htw & Hfw) Hf.
  unfold frame in Hf. apply render_inv in Hf.
  destruct Hf
    as (((Hp & Hv & Hs) & _) & Hwalls & _ & _ & _ & _ & Htw' & Hfw' & _).
  rewrite update_Player in Hp, Hv, Hs.
  destruct (update_anim e s) as (_ & _ & Htw'' & Hfw'').
  destruct (handle_input_fst (key_up e) (GameLost s) (Player s))
    as (Hix & Hivx & Hisz & _).
  unfold player_after_physics, integrate in Hp, Hv, Hs. simpl in Hp, Hv, Hs.
  repeat split.
  - rewrite <- Hp. simpl. rewrite Hix, Hivx, Hx, Hvx. reflexivity.
  - rewrite <- Hv. simpl. rewrite Hivx, Hvx. reflexivity.
  - rewrite <- Hs, Hisz. exact Hsz.
  - eapply Forall2_placed_shape; [ exact Hwalls | ].
    rewrite update_Walls. apply Forall_map.
    eapply Forall_impl; [ | apply walls_after_spawn_shape; exact Hws ].
    intros w Hw. exact Hw.
  - congruence.
  - congruence.
Qed.

Lemma reachable_inv tw th indet s : reachable tw th indet s -> game_inv tw s.
Proof.
  intros [n Hn].
  apply (frames_preserve (game_inv tw)) with (n := n) (s := init tw th indet).
  - intros e t t'. apply game_inv_frame.
  - exact Hn.
  - apply game_inv_init.
Qed.

(** C10.  In every state the loop can be in, the player's horizontal position
    is 200 (the value [SCREEN_WIDTH / 4] it starts with) and its horizontal
    velocity is 0: the key changes only the vertical components and the
    increment [{0, 0.5}] adds 0 horizontally. *)
Theorem player_never_moves_horizontally tw th indet s :
  reachable tw th indet s ->
  fst (Position (Player s)) = Double.of_int 200 /\
  fst (Position (Player s)) = fst (Position (Player (init tw th indet))) /\
  fst (Velocity (Player s)) = Double.of_int 0.
Proof.
  intros Hr. apply reachable_inv in Hr.
  destruct Hr as (Hx & Hvx & _). auto.
Qed.

Lemma player_never_moves_horizontally_witness :
  fst (Position (Player before_first_spawn)) = Double.of_int 200 /\
  fst (Position (Player before_first_spawn)) =
    fst (Position (Player (init 128 32 zero_rect))) /\
  fst (Velocity (Player before_first_spawn)) = Double.of_int 0.
Proof.
  exact (player_never_moves_horizontally 128 32 zero_rect before_first_spawn
           before_first_spawn_reachable).
Defined.

(** ** Concrete frames *)

Lemma first_spawn_frame :
  frame first_spawn_env before_first_spawn = Some after_first_spawn.
Proof. vm_compute. reflexivity. Qed.

Lemma last_frame_inside_reachable :
  reachable 128 32 zero_rect last_frame_inside.
Proof.
  exists (length (repeat hold_env 35)). apply run_frames.
  vm_compute. reflexivity.
Qed.

Lemma flown_out_frame : frame hold_env last_frame_inside = Some flown_out.
Proof. vm_compute. reflexivity. Qed.

Lemma fallen_back_frames : frames 34 flown_out fallen_back.
Proof.
  change 34%nat with (length (repeat hold_env 34)). apply run_frames.
  vm_compute. reflexivity.
Qed.

(** ** Integration *)

Lemma Forall2_map_r {A B} (R : A -> B -> Prop) (f : A -> B) l :
  Forall (fun a => R a (f a)) l -> Forall2 R l (map f l).
Proof. induction 1; simpl; constructor; auto. Qed.

Lemma frame_walls e s s' :
  frame e s = Some s' ->
  Forall2 (fun w w' => placed (move_wall w) w') (walls_after_spawn e s)
          (Walls s').
Proof.
  unfold frame. intros Hf. apply render_inv in Hf.
  destruct Hf as (_ & Hw & _). rewrite update_Walls in Hw.
  revert Hw. generalize (walls_after_spawn e s) (Walls s').
  induction l as [| w ws IH]; intros l' H; inversion H; subst;
    constructor; auto.
Qed.

Lemma frame_player e s s' :
  frame e s = Some s' -> placed (player_after_physics e s) (Player s').
Proof.
  unfold frame. intros Hf. apply render_inv in Hf.
  destruct Hf as (Hp & _). rewrite update_Player in Hp. exact Hp.
Qed.

Lemma frame_GameLost e s s' :
  frame e s = Some s' -> GameLost s' = GameLost (update e s).
Proof.
  unfold frame. intros Hf. apply render_inv in Hf. apply Hf.
Qed.

(** C2.  In every frame, whatever [GameLost] is, the update leaves the
    player with position = position + velocity and velocity = velocity +
    (0, 0.5), the right-hand sides being read where lines 207-208 read them:
    after the keyboard has been handled, which is the state the frame started
    with whenever the key is up or the game is lost.  Every wall in the list,
    including the two a spawn has just appended, is left with position =
    position + (-1, 0).  The increment is the constant 0.5 = 1/2; [DeltaTime]
    does not enter.  The render phase changes none of these, so the same
    holds of the state the frame ends in. *)
Theorem integration_every_frame tw th indet s e :
  reachable tw th indet s ->
  let p := handle_input (key_up e) (GameLost s) (Player s) in
  Position (Player (update e s)) = pos_add (Position p) (Velocity p) /\
  Velocity (Player (update e s)) =
    pos_add (Velocity p) (Double.of_int 0, Double.half) /\
  (GameLost s = true \/ key_up e = false -> p = Player s) /\
  Double.half = Double.div (Double.of_int 1) (Double.of_int 2) /\
  Forall2 (fun w w' =>
             Position w' = pos_add (Position w) (pos_of_ints (-1) 0))
          (walls_after_spawn e s) (Walls (update e s)) /\
  (forall s',
     frame e s = Some s' ->
     Position (Player s') = Position (Player (update e s)) /\
     Velocity (Player s') = Velocity (Player (update e s)) /\
     map Position (Walls s') = map Position (Walls (update e s))).
Proof.
  intros Hr p.
  split; [ rewrite update_Player; reflexivity | ].
  split; [ rewrite update_Player; reflexivity | ].
  split.
  { subst p. unfold handle_input.
    intros [-> | ->]; [ reflexivity | ].
    destruct (negb (GameLost s)); reflexivity. }
  split; [ reflexivity | ].
  split.
  - rewrite update_Walls. apply Forall2_map_r.
    apply reachable_inv in Hr. destruct Hr as (_ & _ & _ & Hshape & _).
    apply (walls_after_spawn_shape e) in Hshape.
    induction Hshape as [| w ws [Hvel _] _ IH]; constructor; [ | exact IH ].
    unfold move_wall. cbn [Position]. rewrite Hvel. reflexivity.
  - intros s' Hf. unfold frame in Hf. apply render_inv in Hf.
    destruct Hf as (((Hp & Hv & _) & _) & Hw & _).
    split; [ auto | ]. split; [ auto | ].
    induction Hw as [| w w' ws ws' ((Hpw & _) & _) _ IH]; cbn [map];
      [ reflexivity | ].
    rewrite IH, Hpw. reflexivity.
Qed.

Lemma integration_every_frame_witness :
  Position (Player after_first_spawn) =
    (Double.of_int 200, Double.dyadic 526 (-1)) /\
  Velocity (Player after_first_spawn) =
    (Double.of_int 0, Double.dyadic 12 (-1)) /\
  map Position (Walls after_first_spawn) =
    [ (Double.of_int 831, Double.of_int 650);
      (Double.of_int 831, Double.of_int (-50)) ].
Proof.
  pose proof (integration_every_frame 128 32 zero_rect before_first_spawn
                first_spawn_env before_first_spawn_reachable) as H.
  cbv zeta in H. destruct H as (Hp & Hv & _ & _ & _ & Hframe).
  destruct (Hframe after_first_spawn first_spawn_frame) as (Hp' & Hv' & Hw').
  rewrite Hp', Hv', Hw', Hp, Hv.
  split; [ vm_compute; reflexivity | ].
  split; vm_compute; reflexivity.
Defined.

(** ** The lost flag *)

Lemma lost_after_border_orb e s :
  lost_after_border e s = out_of_band (player_after_physics e s) || GameLost s.
Proof.
  unfold lost_after_border.
  destruct (out_of_band (player_after_physics e s)); reflexivity.
Qed.

Lemma lost_frame e s s' :
  GameLost s = true -> frame e s = Some s' -> GameLost s' = true.
Proof.
  intros Hl Hf. rewrite (frame_GameLost _ _ _ Hf), update_GameLost.
  rewrite lost_after_border_orb, Hl, orb_true_r. reflexivity.
Qed.

Lemma lost_frames n s s' :
  frames n s s' -> GameLost s = true -> GameLost s' = true.
Proof.
  apply (frames_preserve (fun t => GameLost t = true)).
  intros e t t' Ht Hf. eapply lost_frame; eauto.
Qed.

(** C4.  Once [GameLost] is true it is true after any number of further
    frames; in such a frame the border check, the wall loop and the render
    phase each leave it true, and the keyboard changes nothing: the player
    leaves the update exactly as integration alone moves it, whether or not
    the up key is held. *)
Theorem lost_is_permanent n s s' e :
  GameLost s = true -> frames n s s' ->
  GameLost s' = true /\
  handle_input (key_up e) (GameLost s') (Player s') = Player s' /\
  lost_after_border e s' = true /\
  GameLost (update e s') = true /\
  (forall s'', render (update e s') = Some s'' -> GameLost s'' = true) /\
  Player (update e s') = integrate (Player s').
Proof.
  intros Hl Hn. pose proof (lost_frames _ _ _ Hn Hl) as Hl'.
  assert (lost_after_border e s' = true) as Hb
      by (rewrite lost_after_border_orb, Hl'; apply orb_true_r).
  assert (GameLost (update e s') = true) as Hu
      by (rewrite update_GameLost, Hb; reflexivity).
  repeat split; auto.
  - rewrite Hl'. reflexivity.
  - intros s'' Hr. apply render_inv in Hr.
    destruct Hr as (_ & _ & Hg & _). congruence.
  - rewrite update_Player. unfold player_after_physics.
    rewrite Hl'. reflexivity.
Qed.

Lemma lost_is_permanent_witness :
  GameLost fallen_back = true /\
  handle_input (key_up hold_env) (GameLost fallen_back) (Player fallen_back)
    = Player fallen_back /\
  lost_after_border hold_env fallen_back = true /\
  GameLost (update hold_env fallen_back) = true /\
  (forall s'', render (update hold_env fallen_back) = Some s'' ->
               GameLost s'' = true) /\
  Player (update hold_env fallen_back) = integrate (Player fallen_back).
Proof.
  apply (lost_is_permanent 34 flown_out fallen_back hold_env).
  - vm_compute. reflexivity.
  - exact fallen_back_frames.
Defined.

(** ** The border check *)

Lemma out_of_band_32 p :
  Size p = pos_of_ints 32 32 ->
  out_of_band p =
  Double.lt (snd (Position p)) (Double.of_int (-16))
  || Double.gt (snd (Position p)) (Double.of_int 616).
Proof. intros Hs. unfold out_of_band. rewrite Hs. reflexivity. Qed.

Lemma player_after_physics_Size e s :
  Size (player_after_physics e s) = Size (Player s).
Proof.
  unfold player_after_physics, integrate. simpl.
  apply (handle_input_fst (key_up e) (GameLost s) (Player s)).
Qed.

(** ** The player on the grid of halves *)

Lemma of_int_halves n :
  Z.abs n < 2 ^ 52 -> Double.of_int n = Double.dyadic (2 * n) (-1).
Proof.
  intros Hn. change (Double.of_int n) with (Double.dyadic n 0).
  rewrite <- (dyadic_shift n 1 0) by lia.
  f_equal. lia.
Qed.

Lemma lt_dyadic k j e :
  Z.abs k < 2 ^ 53 -> Z.abs j < 2 ^ 53 -> -1021 <= e <= 971 ->
  Double.lt (Double.dyadic k e) (Double.dyadic j e) = (k <? j).
Proof.
  intros Hk Hj He. unfold Double.lt, Z.ltb.
  rewrite compare_dyadic by assumption. reflexivity.
Qed.

Lemma gt_dyadic k j e :
  Z.abs k < 2 ^ 53 -> Z.abs j < 2 ^ 53 -> -1021 <= e <= 971 ->
  Double.gt (Double.dyadic k e) (Double.dyadic j e) = (k >? j).
Proof.
  intros Hk Hj He. unfold Double.gt, Z.gtb.
  rewrite compare_dyadic by assumption. reflexivity.
Qed.

Lemma out_of_band_grid p k :
  Size p = pos_of_ints 32 32 ->
  snd (Position p) = Double.dyadic k (-1) -> Z.abs k < 2 ^ 53 ->
  out_of_band p = (k <? -32) || (k >? 1232).
Proof.
  intros Hs Hy Hk. rewrite out_of_band_32 by exact Hs. rewrite Hy.
  rewrite (of_int_halves (-16)), (of_int_halves 616) by lia.
  rewrite lt_dyadic, gt_dyadic by lia. reflexivity.
Qed.

Lemma handle_input_grid up p k j :
  on_grid p k j -> Z.abs k < 2 ^ 52 ->
  on_grid (handle_input up false p)
          (if up then k - 2 else k) (if up then -16 else j).
Proof.
  intros [Hy Hv] Hk. unfold handle_input, on_grid.
  destruct up; cbn [negb Position Velocity snd]; [ | auto ].
  split.
  - rewrite Hy, (of_int_halves 1) by lia.
    apply sub_dyadic; lia.
  - apply (of_int_halves (-8)). lia.
Qed.

Lemma integrate_grid p k j :
  on_grid p k j -> Z.abs k < 2 ^ 52 -> Z.abs j < 2 ^ 52 ->
  on_grid (integrate p) (k + j) (j + 1).
Proof.
  intros [Hy Hv] Hk Hj. unfold integrate, on_grid, pos_add.
  cbn [Position Velocity snd]. rewrite Hy, Hv.
  change Double.half with (Double.dyadic 1 (-1)).
  split; apply add_dyadic; lia.
Qed.

Lemma same_body_grid p q k j : same_body p q -> on_grid p k j -> on_grid q k j.
Proof.
  intros (Hp & Hv & _) [Hy Hvy]. unfold on_grid.
  rewrite <- Hp, <- Hv. auto.
Qed.

Lemma alive_inv_init tw th indet : alive_inv (init tw th indet).
Proof.
  intros _. exists 600, 0. split; [ split; reflexivity | lia ].
Qed.

Lemma not_lost_before e s s' :
  frame e s = Some s' -> GameLost s' = false ->
  GameLost s = false /\ out_of_band (player_after_physics e s) = false.
Proof.
  intros Hf Hl. rewrite (frame_GameLost _ _ _ Hf), update_GameLost in Hl.
  apply orb_false_elim in Hl. destruct Hl as [Hl _].
  rewrite lost_after_border_orb in Hl.
  apply orb_false_elim in Hl. destruct Hl as [Hb Hl]. auto.
Qed.

Lemma physics_grid e s k j :
  GameLost s = false -> on_grid (Player s) k j ->
  -32 <= k <= 1232 -> -16 <= j <= 1267 ->
  exists k' j',
    on_grid (player_after_physics e s) k' j' /\
    k - 18 <= k' <= k + 1267 /\ -15 <= j' <= j + 1 /\ j' <= k' - k + 3 /\
    (key_up e = true -> k' = k - 18 /\ j' = -15) /\
    (key_up e = false -> k' = k + j /\ j' = j + 1).
Proof.
  intros Hl Hg Hk Hj. unfold player_after_physics. rewrite Hl.
  pose proof (handle_input_grid (key_up e) _ _ _ Hg ltac:(lia)) as Hin.
  apply integrate_grid in Hin; [ | destruct (key_up e); lia .. ].
  eexists _, _. split; [ exact Hin | ].
  destruct (key_up e); repeat split; intros; try discriminate; lia.
Qed.

Lemma alive_inv_frame tw e s s' :
  game_inv tw s -> alive_inv s -> frame e s = Some s' -> alive_inv s'.
Proof.
  intros Hinv Ha Hf Hl'.
  destruct (not_lost_before _ _ _ Hf Hl') as [Hl Hband].
  destruct (Ha Hl) as (k & j & Hg & Hk & Hj).
  destruct (physics_grid e s k j Hl Hg Hk Hj)
    as (k' & j' & Hg' & Hk' & Hj' & Hkj & _).
  destruct Hinv as (_ & _ & Hsz & _).
  rewrite (out_of_band_grid _ k') in Hband;
    [ | rewrite player_after_physics_Size; exact Hsz | apply Hg' | lia ].
  apply orb_false_elim in Hband. destruct Hband as [Hlo Hhi].
  apply Z.ltb_ge in Hlo. rewrite Z.gtb_ltb in Hhi. apply Z.ltb_ge in Hhi.
  exists k', j'. split.
  - eapply same_body_grid; [ | exact Hg' ].
    apply (frame_player _ _ _ Hf).
  - lia.
Qed.

Lemma reachable_alive tw th indet s :
  reachable tw th indet s -> alive_inv s.
Proof.
  intros [n Hn].
  apply (frames_preserve (fun t => game_inv tw t /\ alive_inv t))
    with (n := n) (s := init tw th indet).
  - intros e t t' [Hi Ha] Hf. split.
    + eapply game_inv_frame; eauto.
    + eapply alive_inv_frame; eauto.
  - exact Hn.
  - split; [ apply game_inv_init | apply alive_inv_init ].
Qed.

(** ** The border check and the jump *)

Lemma lost_after_frames e s s1 n s2 :
  lost_after_border e s = true -> frame e s = Some s1 -> frames n s1 s2 ->
  GameLost s2 = true.
Proof.
  intros Hb Hf Hn. eapply lost_frames; [ exact Hn | ].
  rewrite (frame_GameLost _ _ _ Hf), update_GameLost, Hb. reflexivity.
Qed.

(** C6.  In every frame, right after integration, [GameLost] becomes true
    exactly when the player's vertical position is below -16 = -Size[1]/2 or
    above 616 = SCREEN_HEIGHT + Size[1]/2, both strictly; otherwise it keeps
    its value.  While the game is not lost that position is a whole number
    [k] of halves, and the flag is set exactly when [k < -32] or [1232 < k],
    so the borders -16 and 616 themselves do not lose the game.  Once the
    check has set the flag it is true after every later frame, wherever the
    player then is. *)
Theorem border_check tw th indet s e :
  reachable tw th indet s ->
  let p := player_after_physics e s in
  out_of_band p =
    Double.lt (snd (Position p)) (Double.of_int (-16))
    || Double.gt (snd (Position p)) (Double.of_int 616) /\
  lost_after_border e s = (if out_of_band p then true else GameLost s) /\
  (GameLost s = false ->
   exists k,
     snd (Position p) = Double.dyadic k (-1) /\
     Double.units (snd (Position p)) = Some (k * 2 ^ 1073) /\
     (lost_after_border e s = true <-> k < -32 \/ 1232 < k)) /\
  (forall n s1 s2,
     lost_after_border e s = true -> frame e s = Some s1 -> frames n s1 s2 ->
     GameLost s2 = true).
Proof.
  intros Hr p.
  pose proof (reachable_inv _ _ _ _ Hr) as (_ & _ & Hsz & _).
  assert (Size p = pos_of_ints 32 32) as Hsz'
      by (subst p; rewrite player_after_physics_Size; exact Hsz).
  split; [ apply out_of_band_32; exact Hsz' | ].
  split; [ reflexivity | ].
  split.
  - intros Hl.
    destruct (reachable_alive _ _ _ _ Hr Hl) as (k & j & Hg & Hk & Hj).
    destruct (physics_grid e s k j Hl Hg Hk Hj)
      as (k' & j' & Hg' & Hk' & _).
    exists k'. split; [ apply Hg' | ].
    split.
    + subst p. rewrite (proj1 Hg'). apply dyadic_units; lia.
    + rewrite lost_after_border_orb, Hl, orb_false_r.
      fold p. rewrite (out_of_band_grid p k' Hsz' (proj1 Hg')) by lia.
      rewrite orb_true_iff, Z.ltb_lt, Z.gtb_ltb, Z.ltb_lt. reflexivity.
  - intros n s1 s2. apply lost_after_frames.
Qed.

Lemma border_check_witness :
  (GameLost last_frame_inside = false /\
   lost_after_border hold_env last_frame_inside = true /\
   snd (Position (Player flown_out)) = Double.dyadic (-48) (-1)) /\
  (GameLost fallen_back = true /\
   snd (Position (Player fallen_back)) = Double.dyadic 3 (-1) /\
   out_of_band (Player fallen_back) = false).
Proof.
  pose proof (border_check 128 32 zero_rect last_frame_inside hold_env
                last_frame_inside_reachable) as (_ & _ & _ & Hstay).
  split.
  - split; [ vm_compute; reflexivity | ].
    split; vm_compute; reflexivity.
  - split; [ | split; vm_compute; reflexivity ].
    apply (Hstay 34%nat flown_out fallen_back).
    + vm_compute. reflexivity.
    + exact flown_out_frame.
    + exact fallen_back_frames.
Defined.

Lemma jump_step s e :
  key_up e = true -> GameLost s = false ->
  let p := handle_input (key_up e) (GameLost s) (Player s) in
  snd (Position p) = Double.sub (snd (Position (Player s))) (Double.of_int 1) /\
  snd (Velocity p) = Double.of_int (-8) /\
  fst (Position p) = fst (Position (Player s)) /\
  fst (Velocity p) = fst (Velocity (Player s)) /\
  Player (update e s) = integrate p.
Proof.
  intros Hup Hl p. subst p. rewrite update_Player.
  unfold player_after_physics. rewrite Hup, Hl. cbn. auto.
Qed.

Lemma jump_exact tw th indet s :
  reachable tw th indet s -> GameLost s = false ->
  exists k,
    snd (Position (Player s)) = Double.dyadic k (-1) /\
    snd (Position (handle_input true false (Player s))) =
      Double.dyadic (k - 2) (-1) /\
    Double.units (snd (Position (Player s))) = Some (k * 2 ^ 1073) /\
    Double.units (snd (Position (handle_input true false (Player s)))) =
      Some (k * 2 ^ 1073 - 2 ^ 1074).
Proof.
  intros Hr Hl.
  destruct (reachable_alive _ _ _ _ Hr Hl) as (k & j & Hg & Hk & Hj).
  pose proof (handle_input_grid true _ _ _ Hg ltac:(lia)) as [Hy _].
  exists k. split; [ apply Hg | ]. split; [ exact Hy | ].
  rewrite Hy, (proj1 Hg), !dyadic_units by lia.
  split; [ reflexivity | ]. f_equal.
  change (2 ^ 1074) with (2 * 2 ^ 1073). lia.
Qed.

(** C7.  In every frame in which the up key is held and the game is not
    lost, the keyboard step, which runs before integration, replaces the
    vertical position [y] by [y - 1] and the vertical velocity by -8, and
    touches nothing horizontal; [y] is then a whole number [k] of halves and
    the new position is [k - 2] halves, so the decrease is exactly 1.  The
    step looks at the key's level only, hence it acts again in the next frame
    if the key is still held and the game still not lost.  With [GameLost]
    true, or the key up, the step changes nothing. *)
Theorem jump_input tw th indet s e :
  reachable tw th indet s -> key_up e = true -> GameLost s = false ->
  let p := handle_input (key_up e) (GameLost s) (Player s) in
  (snd (Position p) =
     Double.sub (snd (Position (Player s))) (Double.of_int 1) /\
   snd (Velocity p) = Double.of_int (-8) /\
   fst (Position p) = fst (Position (Player s)) /\
   fst (Velocity p) = fst (Velocity (Player s)) /\
   Player (update e s) = integrate p) /\
  (exists k,
     snd (Position (Player s)) = Double.dyadic k (-1) /\
     snd (Position p) = Double.dyadic (k - 2) (-1) /\
     Double.units (snd (Position (Player s))) = Some (k * 2 ^ 1073) /\
     Double.units (snd (Position p)) = Some (k * 2 ^ 1073 - 2 ^ 1074)) /\
  (forall s' e',
     frame e s = Some s' -> key_up e' = true -> GameLost s' = false ->
     let p' := handle_input (key_up e') (GameLost s') (Player s') in
     snd (Position p') =
       Double.sub (snd (Position (Player s'))) (Double.of_int 1) /\
     snd (Velocity p') = Double.of_int (-8)) /\
  (forall up q, handle_input up true q = q) /\
  (forall lost q, handle_input false lost q = q).
Proof.
  intros Hr Hup Hl p.
  split; [ apply jump_step; assumption | ].
  split.
  { subst p. rewrite Hup, Hl. eapply jump_exact; eauto. }
  split.
  { intros s' e' Hf Hup' Hl' p'.
    destruct (jump_step s' e' Hup' Hl') as (Hy & Hv & _). auto. }
  split; [ reflexivity | ].
  intros lost q. unfold handle_input. destruct (negb lost); reflexivity.
Qed.

Lemma jump_input_witness :
  snd (Position (handle_input true false (Player before_first_spawn))) =
    Double.sub (snd (Position (Player before_first_spawn))) (Double.of_int 1) /\
  snd (Velocity (handle_input true false (Player before_first_spawn))) =
    Double.of_int (-8).
Proof.
  pose proof (jump_input 128 32 zero_rect before_first_spawn hold_env
                before_first_spawn_reachable eq_refl eq_refl)
    as ((Hy & Hv & _) & _).
  split; [ exact Hy | exact Hv ].
Defined.

(** ** Spawning *)

Lemma add_of_int a b :
  Z.abs a < 2 ^ 52 -> Z.abs b < 2 ^ 52 ->
  Double.add (Double.of_int a) (Double.of_int b) = Double.of_int (a + b).
Proof. intros Ha Hb. apply (add_dyadic a b 0); lia. Qed.

Lemma sub_of_int a b :
  Z.abs a < 2 ^ 52 -> Z.abs b < 2 ^ 52 ->
  Double.sub (Double.of_int a) (Double.of_int b) = Double.of_int (a - b).
Proof. intros Ha Hb. apply (sub_dyadic a b 0); lia. Qed.

(** C1, as the code has it.  In every frame whose advanced [GameTime] exceeds
    [Interval], exactly two walls are appended to [Walls], nothing else is
    added or removed, both walls have x = 832, velocity (-1, 0) and size
    (64, 512), the first has y = 650 + pos and the second y = -50 + pos for
    the one number [pos] drawn from [-150, 150]; the first wall's y minus the
    second wall's y is 700. *)
Theorem spawn_appends_pair e s :
  spawn_due s = true -> -150 <= rand_pos e <= 150 ->
  let pos := rand_pos e in
  let w1 := mkObject (Double.of_int 832, Double.of_int (650 + pos))
                     (Double.of_int (-1), Double.of_int 0)
                     (Double.of_int 64, Double.of_int 512) (indet_first e) in
  let w2 := mkObject (Double.of_int 832, Double.of_int (-50 + pos))
                     (Double.of_int (-1), Double.of_int 0)
                     (Double.of_int 64, Double.of_int 512) (indet_second e) in
  walls_after_spawn e s = Walls s ++ [w1; w2] /\
  length (Walls (update e s)) = (length (Walls s) + 2)%nat /\
  Double.sub (snd (Position w1)) (snd (Position w2)) = Double.of_int 700.
Proof.
  intros Hdue Hpos pos w1 w2.
  assert (walls_after_spawn e s = Walls s ++ [w1; w2]) as Hw.
  { unfold walls_after_spawn. rewrite Hdue. f_equal.
    unfold spawned_walls, GetWall, pos_of_ints. fold pos.
    rewrite !add_of_int by lia. reflexivity. }
  split; [ exact Hw | ]. split.
  - rewrite update_Walls, Hw. rewrite length_map, length_app. reflexivity.
  - subst w1 w2. cbn [Position snd]. rewrite sub_of_int by lia.
    f_equal. lia.
Qed.

Lemma spawn_appends_pair_witness :
  walls_after_spawn first_spawn_env before_first_spawn =
    Walls before_first_spawn
    ++ [ mkObject (Double.of_int 832, Double.of_int 650)
                  (Double.of_int (-1), Double.of_int 0)
                  (Double.of_int 64, Double.of_int 512) far_rect;
         mkObject (Double.of_int 832, Double.of_int (-50))
                  (Double.of_int (-1), Double.of_int 0)
                  (Double.of_int 64, Double.of_int 512) far_rect ] /\
  Double.sub (Double.of_int 650) (Double.of_int (-50)) = Double.of_int 700.
Proof.
  pose proof (spawn_appends_pair first_spawn_env before_first_spawn) as H.
  cbv zeta in H.
  destruct H as (Hw & _ & Hd).
  - vm_compute. reflexivity.
  - vm_compute. split; discriminate.
  - split; [ exact Hw | exact Hd ].
Defined.

(** C1 as stated fails in its last clause: at the first spawn of a run, with
    offset 0, the walls are appended at y = 650 and then y = -50, so the
    second wall's y minus the first wall's y is -700, not 700. *)
Lemma spawn_second_minus_first_is_negative :
  spawn_due before_first_spawn = true /\
  env_ok first_spawn_env = true /\
  map (fun w => snd (Position w))
      (skipn (length (Walls before_first_spawn))
             (walls_after_spawn first_spawn_env before_first_spawn)) =
    [Double.of_int 650; Double.of_int (-50)] /\
  Double.sub (Double.of_int (-50)) (Double.of_int 650) = Double.of_int (-700) /\
  Double.of_int (-700) <> Double.of_int 700.
Proof.
  split; [ vm_compute; reflexivity | ].
  split; [ vm_compute; reflexivity | ].
  split; [ vm_compute; reflexivity | ].
  split; [ vm_compute; reflexivity | ].
  vm_compute. discriminate.
Qed.

(** ** The sprite animation *)

Lemma frame_animate e s s' :
  frame e s = Some s' ->
  (FrameTime s', rx (anim s')) =
    animate (TextureWidth s) (FrameWidth s) (FrameTime s) (rx (anim s)) /\
  TextureWidth s' = TextureWidth s /\ FrameWidth s' = FrameWidth s.
Proof.
  unfold frame. intros Hf. apply render_inv in Hf.
  destruct Hf as (_ & _ & _ & _ & _ & _ & Htw & Hfw & Han).
  destruct (update_anim e s) as (Hft & Hanim & Htw' & Hfw').
  rewrite Hft, Hanim, Htw', Hfw' in *. auto.
Qed.

(** One step of [animate] on a sheet of four frames of width [fw], with the
    frame counter [r] and the offset at frame number [b]. *)
Lemma animate_four fw r b :
  0 < fw -> 4 * fw <= Int.max_signed -> 0 <= r < 5 -> 0 <= b < 4 ->
  animate (4 * fw) fw r (fw * b) =
  if r =? 4 then (0, fw * ((b + 1) mod 4)) else (r + 1, fw * b).
Proof.
  unfold Int.max_signed. intros Hfw Hmax Hr Hb. unfold animate.
  rewrite (add_no_overflow r 1)
    by (unfold Int.in_range, Int.min_signed, Int.max_signed;
        apply andb_true_intro; split; apply Z.leb_le; lia).
  destruct (Z.eqb_spec r 4) as [-> | Hr4].
  - cbn [Z.add Z.eqb Pos.add Pos.succ Pos.eqb].
    assert (0 <= fw * b <= 3 * fw) as Hx by nia.
    rewrite (add_no_overflow (fw * b) fw)
      by (unfold Int.in_range, Int.min_signed, Int.max_signed;
          apply andb_true_intro; split; apply Z.leb_le; lia).
    f_equal.
    destruct (Z.eq_dec b 3) as [-> | Hb3].
    + replace (fw * 3 + fw) with (4 * fw) by lia.
      replace (4 * fw >=? 4 * fw) with true by (symmetry; apply Z.geb_le; lia).
      cbn. lia.
    + replace (fw * b + fw >=? 4 * fw) with false
        by (symmetry; rewrite Z.geb_leb; apply Z.leb_gt; nia).
      rewrite Z.mod_small by lia. lia.
  - replace (r + 1 =? 5) with false by (symmetry; apply Z.eqb_neq; lia).
    reflexivity.
Qed.

Lemma animation_state fw th indet n s :
  0 < fw -> 4 * fw <= Int.max_signed ->
  frames n (init (4 * fw) th indet) s ->
  TextureWidth s = 4 * fw /\ FrameWidth s = fw /\
  FrameTime s = Z.of_nat n mod 5 /\
  rx (anim s) = fw * ((Z.of_nat n / 5) mod 4).
Proof.
  intros Hfw Hmax Hn.
  remember (init (4 * fw) th indet) as s0 eqn:Hs0.
  induction Hn as [s | n s s1 e s2 Hn IH Ha Ho Hf].
  - subst s. unfold init. cbn [TextureWidth FrameWidth FrameTime anim rx].
    unfold Int.div. replace (4 * fw) with (fw * 4) by lia.
    rewrite Z.quot_mul by lia. cbn [Z.of_nat].
    change (0 mod 5) with 0. change (0 / 5) with 0. change (0 mod 4) with 0.
    repeat split; lia.
  - destruct (IH Hs0) as (Htw & Hfwd & Hft & Hx). clear IH.
    destruct (frame_animate _ _ _ Hf) as (Han & Htw' & Hfw').
    rewrite Htw, Hfwd, Hft, Hx in Han.
    pose proof (Z.mod_pos_bound (Z.of_nat n) 5 ltac:(lia)) as Hr.
    pose proof (Z.mod_pos_bound (Z.of_nat n / 5) 4 ltac:(lia)) as Hb.
    rewrite animate_four in Han by assumption.
    rewrite Nat2Z.inj_succ. unfold Z.succ.
    pose proof (Z.div_mod (Z.of_nat n) 5 ltac:(lia)) as Hdm.
    set (q := Z.of_nat n / 5) in *. set (r := Z.of_nat n mod 5) in *.
    split; [ congruence | ]. split; [ congruence | ].
    destruct (Z.eqb_spec r 4) as [Hr4 | Hr4].
    + assert (Z.of_nat n + 1 = 0 + (q + 1) * 5) as Hn1 by lia.
      injection Han as Hft' Hx'. rewrite Hft', Hx', Hn1.
      rewrite Z.mod_add, Z.div_add by lia.
      change (0 mod 5) with 0. change (0 / 5) with 0.
      rewrite Z.add_0_l. split; [ reflexivity | ].
      f_equal. rewrite Z.add_mod_idemp_l by lia. reflexivity.
    + assert (Z.of_nat n + 1 = (r + 1) + q * 5) as Hn1 by lia.
      injection Han as Hft' Hx'. rewrite Hft', Hx', Hn1.
      rewrite Z.mod_add, Z.div_add by lia.
      rewrite Z.mod_small, Z.div_small by lia.
      split; [ reflexivity | ]. f_equal.
Qed.

(** C8, as the code has it.  When the width of the player's sheet is a
    positive multiple of 4, after [n] frames the frame counter is [n mod 5] and
    the offset [anim.x] is [frame_width * ((n / 5) mod 4)]: the offset moves by
    one frame width once every 5 frames, takes the four values 0,
    frame_width, 2 frame_width and 3 frame_width, and returns to 0 where it
    would reach the sheet's width. *)
Theorem animation_cycle fw th indet n s :
  0 < fw -> 4 * fw <= Int.max_signed ->
  frames n (init (4 * fw) th indet) s ->
  FrameWidth s = Int.div (4 * fw) 4 /\ FrameWidth s = fw /\
  FrameTime s = Z.of_nat n mod 5 /\
  rx (anim s) = fw * ((Z.of_nat n / 5) mod 4) /\
  0 <= (Z.of_nat n / 5) mod 4 < 4.
Proof.
  intros Hfw Hmax Hn.
  destruct (animation_state fw th indet n s Hfw Hmax Hn)
    as (_ & Hfwd & Hft & Hx).
  split.
  - rewrite Hfwd. unfold Int.div. replace (4 * fw) with (fw * 4) by lia.
    rewrite Z.quot_mul by lia. reflexivity.
  - repeat split; auto; apply Z.mod_pos_bound; lia.
Qed.

Lemma animation_cycle_witness :
  FrameWidth after_first_spawn = 32 /\
  FrameTime after_first_spawn = 1 /\
  rx (anim after_first_spawn) = 32 * 0.
Proof.
  assert (frames 61 (init (4 * 32) 32 zero_rect) after_first_spawn) as Hn.
  { apply (frames_S 60 _ before_first_spawn first_spawn_env).
    - change 60%nat with (length (tap_envs 60)). apply run_frames.
      vm_compute. reflexivity.
    - vm_compute. reflexivity.
    - vm_compute. reflexivity.
    - exact first_spawn_frame. }
  pose proof (animation_cycle 32 32 zero_rect 61 after_first_spawn) as H.
  destruct H as (_ & Hfw & Hft & Hx & _).
  - lia.
  - vm_compute. discriminate.
  - exact Hn.
  - repeat split; assumption.
Defined.

(** C8 as stated fails for a sheet whose width is not a multiple of 4: with
    width 5 the frame width is 1, and after 20 frames the offset is 4, a
    fifth position, beyond 3 frame widths. *)
Lemma animation_fifth_position :
  option_map (fun s => (TextureWidth s, FrameWidth s, rx (anim s)))
             sheet5_after_20 = Some (5, 1, 4) /\
  ~ In 4 [0; 1; 2 * 1; 3 * 1].
Proof.
  split.
  - vm_compute. reflexivity.
  - cbn. lia.
Qed.

(** ** Which rectangles the collision test reads *)

Lemma firstn_map_app {A B} (f : A -> B) (l l' : list A) :
  firstn (length l) (map f (l ++ l')) = map f l.
Proof.
  rewrite map_app, <- (length_map f l), firstn_app, Nat.sub_diag.
  rewrite firstn_all, firstn_O, app_nil_r. reflexivity.
Qed.

Lemma walls_after_spawn_app e s :
  exists fresh,
    walls_after_spawn e s = Walls s ++ fresh /\
    fresh = if spawn_due s then spawned_walls e else [].
Proof.
  unfold walls_after_spawn. destruct (spawn_due s); eexists; split;
    try reflexivity.
  symmetry. apply app_nil_r.
Qed.

Lemma hits_physics e s w :
  hits (player_after_physics e s) w = hits (Player s) w.
Proof.
  unfold hits, player_after_physics, integrate. cbn [DestRect].
  f_equal. apply (handle_input_fst (key_up e) (GameLost s) (Player s)).
Qed.

Lemma existsb_hits_physics e s ws :
  existsb (hits (player_after_physics e s)) ws = existsb (hits (Player s)) ws.
Proof.
  induction ws as [| w ws IH]; [ reflexivity | ].
  cbn [existsb]. rewrite IH, hits_physics. reflexivity.
Qed.

(** C3, as the code has it.  In every frame after the first, the
    rectangles a wall and the player carry into the frame are the ones the
    previous frame's render phase computed from the positions that frame's
    integration produced; and for the walls that were in the list when the
    previous frame ended the collision test of this frame is made on exactly
    those rectangles: [GameLost] after the update is the border check's
    result, or [CheckCollision] of such a wall's rectangle and the player's
    rectangle, or a hit among the walls spawned in this frame (none when the
    frame does not spawn).  The positions this frame computes, and the key
    that decides the player's, do not enter: the rectangles are recomputed
    only afterwards, in the render phase. *)
Theorem collision_reads_previous_boxes e0 s0 s e :
  frame e0 s0 = Some s ->
  Forall2 (fun w0 w => rect_of (move_wall w0) = Some (DestRect w))
          (walls_after_spawn e0 s0) (Walls s) /\
  rect_of (player_after_physics e0 s0) = Some (DestRect (Player s)) /\
  (exists fresh_hit,
     GameLost (update e s) =
       lost_after_border e s
       || existsb (fun w => CheckCollision (DestRect w) (DestRect (Player s)))
                  (Walls s)
       || fresh_hit /\
     (spawn_due s = false -> fresh_hit = false)) /\
  firstn (length (Walls s)) (collision_calls e s) =
    map (fun w => (DestRect w, DestRect (Player s))) (Walls s) /\
  (forall up,
     collision_calls
       (mkEnv (quit_event e) up (rand_interval e) (rand_pos e)
              (indet_first e) (indet_second e)) s =
     collision_calls e s).
Proof.
  intros Hf. split; [ | split; [ | split; [ | split ] ] ].
  - eapply Forall2_impl; [ | apply (frame_walls _ _ _ Hf) ].
    intros w0 w [_ Hr]. exact Hr.
  - apply (frame_player _ _ _ Hf).
  - destruct (walls_after_spawn_app e s) as (fresh & Happ & Hfresh).
    exists (existsb (hits (Player s)) fresh). split.
    + rewrite update_GameLost, existsb_hits_physics, Happ, existsb_app.
      rewrite orb_assoc. reflexivity.
    + intros Hdue. rewrite Hfresh, Hdue. reflexivity.
  - rewrite collision_calls_spec.
    destruct (walls_after_spawn_app e s) as (fresh & -> & _).
    apply firstn_map_app.
  - intros up. rewrite !collision_calls_spec. reflexivity.
Qed.

Lemma lag_state_frame : frame (high_gap_env 643) lag_prev = Some lag_state.
Proof. vm_compute. reflexivity. Qed.

(** The lag at work: the pair's rectangles were drawn at x = 216, next to
    the player's column 184..215, so the frame does not lose the game,
    although the rectangles of the positions it has just computed overlap;
    the game is lost one frame later, on the rectangles drawn in between. *)
Lemma collision_reads_previous_boxes_witness :
  (GameLost lag_state = false /\
   map DestRect (firstn 2 (Walls lag_state)) =
     [ mkRect 216 544 64 512; mkRect 216 (-156) 64 512 ] /\
   DestRect (Player lag_state) = mkRect 184 196 32 32) /\
  GameLost (update (high_gap_env 644) lag_state) = false /\
  boxes_now_hit (high_gap_env 644) lag_state = true /\
  GameLost (update (high_gap_env 645) lag_next) = true.
Proof.
  destruct (collision_reads_previous_boxes
              (high_gap_env 643) lag_prev lag_state (high_gap_env 644)
              lag_state_frame) as (_ & _ & (fresh_hit & Hlost & Hfresh) & _).
  split.
  { split; [ vm_compute; reflexivity | ].
    split; vm_compute; reflexivity. }
  split.
  { rewrite Hlost, Hfresh by (vm_compute; reflexivity).
    vm_compute. reflexivity. }
  split; vm_compute; reflexivity.
Defined.

(** C3 as stated fails on a spawn frame.  After 60 frames no wall exists, so
    the 60th frame's render phase computed no wall rectangle; the 61st frame
    spawns and makes two collision tests, each on a wall rectangle that holds
    the storage's content and not the rectangle of the wall's position.  When
    that content overlaps the player's rectangle the frame loses the game,
    with the player inside the band and no rectangle from any render phase
    to collide with. *)
Lemma collision_reads_unrendered_box :
  tapped 60 = Some before_first_spawn /\
  map DestRect (Walls before_first_spawn) = [] /\
  collision_calls first_spawn_env before_first_spawn =
    [ (far_rect, mkRect 184 241 32 32); (far_rect, mkRect 184 241 32 32) ] /\
  map rect_of (spawned_walls first_spawn_env) =
    [ Some (mkRect 800 394 64 512); Some (mkRect 800 (-306) 64 512) ] /\
  collision_calls first_spawn_env before_first_spawn <>
    map (fun w => (DestRect w, DestRect (Player before_first_spawn)))
        (Walls before_first_spawn) /\
  lost_after_border overlapping_env before_first_spawn = false /\
  GameLost (update overlapping_env before_first_spawn) = true.
Proof.
  split; [ vm_compute; reflexivity | ].
  split; [ vm_compute; reflexivity | ].
  split; [ vm_compute; reflexivity | ].
  split; [ vm_compute; reflexivity | ].
  split; [ vm_compute; discriminate | ].
  split; vm_compute; reflexivity.
Qed.

(** C9.  In a frame that spawns, the two new walls go through the wall loop
    of that same frame: the collision test is called for them, after the
    calls for the older walls, on the unassigned [DestRect] that [GetWall]
    left (the environment's [indet_first] and [indet_second]), and these enter
    the [GameLost] decision.  [GetWall] never sets [DestRect]; only the
    render phase, after the loop, gives each new wall the rectangle of its
    position.  The number drawn for the spawn position does not reach the
    test. *)
Theorem fresh_wall_tested_on_unassigned_box e s :
  spawn_due s = true ->
  (forall indet P V S, DestRect (GetWall indet P V S) = indet) /\
  collision_calls e s =
    map (fun w => (DestRect w, DestRect (Player s))) (Walls s)
    ++ [ (indet_first e, DestRect (Player s));
         (indet_second e, DestRect (Player s)) ] /\
  GameLost (update e s) =
    lost_after_border e s
    || existsb (hits (Player s)) (Walls s)
    || CheckCollision (indet_first e) (DestRect (Player s))
    || CheckCollision (indet_second e) (DestRect (Player s)) /\
  (forall pos,
     collision_calls
       (mkEnv (quit_event e) (key_up e) (rand_interval e) pos
              (indet_first e) (indet_second e)) s =
     collision_calls e s) /\
  (forall s',
     frame e s = Some s' ->
     Forall2 (fun w w' => rect_of (move_wall w) = Some (DestRect w'))
             (Walls s ++ spawned_walls e) (Walls s')).
Proof.
  intros Hdue.
  assert (walls_after_spawn e s = Walls s ++ spawned_walls e) as Hw
      by (unfold walls_after_spawn; rewrite Hdue; reflexivity).
  split; [ reflexivity | ]. split; [ | split; [ | split ] ].
  - rewrite collision_calls_spec, Hw, map_app. reflexivity.
  - rewrite update_GameLost, Hw, existsb_app.
    rewrite !existsb_hits_physics.
    cbn [spawned_walls existsb hits GetWall DestRect].
    rewrite orb_false_r, !orb_assoc. reflexivity.
  - intros pos. rewrite !collision_calls_spec.
    unfold walls_after_spawn. rewrite Hdue. rewrite !map_app. reflexivity.
  - intros s' Hf. rewrite <- Hw.
    eapply Forall2_impl; [ | apply (frame_walls _ _ _ Hf) ].
    intros w w' [_ Hr]. exact Hr.
Qed.

Lemma fresh_wall_tested_on_unassigned_box_witness :
  GameLost before_first_spawn = false /\
  map Position (spawned_walls overlapping_env) =
    map Position (spawned_walls first_spawn_env) /\
  GameLost (update first_spawn_env before_first_spawn) = false /\
  GameLost (update overlapping_env before_first_spawn) = true.
Proof.
  pose proof (fresh_wall_tested_on_unassigned_box first_spawn_env
                before_first_spawn) as H1.
  pose proof (fresh_wall_tested_on_unassigned_box overlapping_env
                before_first_spawn) as H2.
  destruct H1 as (_ & _ & Hl1 & _); [ vm_compute; reflexivity | ].
  destruct H2 as (_ & _ & Hl2 & _); [ vm_compute; reflexivity | ].
  split; [ vm_compute; reflexivity | ].
  split; [ vm_compute; reflexivity | ].
  split.
  - rewrite Hl1. vm_compute. reflexivity.
  - rewrite Hl2. vm_compute. reflexivity.
Defined.

(** * Further properties of the code *)

(** ** [CheckCollision] as a statement about pixels *)

(** X1.  For rectangles of positive width and height whose sides fit in an
    [int], [CheckCollision] answers whether the two have a pixel in common. *)
Theorem CheckCollision_common_pixel a b :
  no_overflow a -> no_overflow b ->
  0 < rw a -> 0 < rh a -> 0 < rw b -> 0 < rh b ->
  (CheckCollision a b = true <->
   exists px py, inside a px py /\ inside b px py).
Proof.
  intros [Hax Hay] [Hbx Hby] Hwa Hha Hwb Hhb.
  rewrite CheckCollision_spec, !add_no_overflow by assumption.
  unfold inside. split.
  - intros (H1 & H2 & H3 & H4).
    exists (Z.max (rx a) (rx b)), (Z.max (ry a) (ry b)). lia.
  - intros (px & py & Ha & Hb). lia.
Qed.

Lemma CheckCollision_common_pixel_witness :
  CheckCollision (mkRect 799 394 64 512) (mkRect 184 247 32 32) = true <->
  exists px py,
    inside (mkRect 799 394 64 512) px py /\ inside (mkRect 184 247 32 32) px py.
Proof.
  apply CheckCollision_common_pixel; unfold no_overflow; cbn; try lia; auto.
Defined.

(** X2.  A rectangle collides with itself exactly when it has positive width and
    height; so an empty rectangle is reported as missing even itself. *)
Theorem CheckCollision_self a :
  no_overflow a ->
  (CheckCollision a a = true <-> 0 < rw a /\ 0 < rh a).
Proof.
  intros [Hx Hy].
  rewrite CheckCollision_spec, !add_no_overflow by assumption. lia.
Qed.

Lemma CheckCollision_self_witness :
  (CheckCollision (mkRect 184 247 32 32) (mkRect 184 247 32 32) = true <->
   0 < 32 /\ 0 < 32) /\
  (CheckCollision (mkRect 5 5 0 9) (mkRect 5 5 0 9) = true <-> 0 < 0 /\ 0 < 9).
Proof.
  split; apply CheckCollision_self; unfold no_overflow; cbn; auto.
Defined.

(** ** The wall list only grows *)

Lemma Forall2_firstn_app {A B} (R : A -> B -> Prop) l l1 l2 :
  Forall2 R (l ++ l1) l2 -> Forall2 R l (firstn (length l) l2).
Proof.
  revert l2. induction l as [| a l IH]; intros l2 H; cbn.
  - constructor.
  - inversion H; subst. cbn. constructor; auto.
Qed.

Lemma walls_only_grow_length e s s' :
  frame e s = Some s' ->
  length (Walls s') =
    (length (Walls s) + (if spawn_due s then 2 else 0))%nat.
Proof.
  intros Hf. rewrite <- (Forall2_length (frame_walls _ _ _ Hf)).
  unfold walls_after_spawn.
  destruct (spawn_due s); [ | lia ].
  rewrite length_app. reflexivity.
Qed.

(** X3.  A frame never removes, reorders or resizes a wall: the walls it started
    with are the first walls it ends with, each moved by its own velocity, and
    the list is longer by two after a frame that spawns and by nothing
    otherwise. *)
Theorem walls_only_grow e s s' :
  frame e s = Some s' ->
  length (Walls s') =
    (length (Walls s) + (if spawn_due s then 2 else 0))%nat /\
  Forall2 (fun w w' =>
             Position w' = pos_add (Position w) (Velocity w) /\
             Velocity w' = Velocity w /\ Size w' = Size w)
          (Walls s) (firstn (length (Walls s)) (Walls s')).
Proof.
  intros Hf. pose proof (frame_walls _ _ _ Hf) as Hw. split.
  - rewrite <- (Forall2_length Hw). unfold walls_after_spawn.
    destruct (spawn_due s); [ | lia ].
    rewrite length_app. reflexivity.
  - destruct (walls_after_spawn_app e s) as (fresh & Happ & _).
    rewrite Happ in Hw. apply Forall2_firstn_app in Hw.
    eapply Forall2_impl; [ | exact Hw ].
    intros w w' ((Hp & Hv & Hs) & _). cbn in Hp, Hv, Hs. auto.
Qed.

Lemma walls_only_grow_witness :
  length (Walls after_first_spawn) =
    (length (Walls before_first_spawn) + 2)%nat.
Proof.
  destruct (walls_only_grow first_spawn_env before_first_spawn
              after_first_spawn first_spawn_frame) as [Hlen _].
  rewrite Hlen. vm_compute. reflexivity.
Defined.

(** ** Casts of small dyadic values *)

Lemma trunc_dyadic k e :
  Z.abs k < 2 ^ 53 -> -1021 <= e <= 0 ->
  Double.trunc (Double.dyadic k e) = Some (Z.quot k (2 ^ (- e))).
Proof.
  intros Hk He. destruct (Z.eq_dec k 0) as [-> | Hk0].
  { reflexivity. }
  destruct (dyadic_form k e Hk0 Hk ltac:(lia)) as (m & E & -> & HE & Hm & _).
  cbn [Double.trunc]. f_equal.
  rewrite Z.shiftl_div_pow2 by lia.
  assert (0 < 2 ^ (e - E)) as Hp1 by (apply Z.pow_pos_nonneg; lia).
  assert (0 < 2 ^ (- e)) as Hp2 by (apply Z.pow_pos_nonneg; lia).
  replace (- E) with ((- e) + (e - E)) by lia.
  rewrite Z.pow_add_r by lia.
  destruct (Z.ltb_spec k 0) as [Hneg | Hpos]; cbn [cond_Zopp] in Hm |- *.
  - replace (Zpos m) with ((- k) * 2 ^ (e - E)) by lia.
    rewrite Z.div_mul_cancel_r by lia.
    rewrite <- Z.quot_div_nonneg by lia.
    rewrite Z.quot_opp_l by lia. lia.
  - rewrite Hm, Z.div_mul_cancel_r by lia.
    symmetry. apply Z.quot_div_nonneg; lia.
Qed.

Lemma to_int_of_int z :
  Int.in_range z = true -> Double.to_int (Double.of_int z) = Some z.
Proof.
  intros Hz. unfold Double.to_int.
  change (Double.of_int z) with (Double.dyadic z 0).
  assert (Z.abs z < 2 ^ 53) as Hs.
  { unfold Int.in_range, Int.min_signed, Int.max_signed in Hz.
    apply andb_prop in Hz. destruct Hz as [H1 H2].
    apply Z.leb_le in H1. apply Z.leb_le in H2. lia. }
  rewrite trunc_dyadic by lia. cbn [Z.opp Z.pow].
  change (2 ^ 0) with 1. rewrite Z.quot_1_r, Hz. reflexivity.
Qed.

Lemma to_int_halves k :
  Z.abs k < 2 ^ 53 ->
  Double.to_int (Double.dyadic k (-1)) =
  if Int.in_range (Z.quot k 2) then Some (Z.quot k 2) else None.
Proof.
  intros Hk. unfold Double.to_int. rewrite trunc_dyadic by lia. reflexivity.
Qed.

Lemma in_range_iff z :
  Int.in_range z = true <-> - 2 ^ 31 <= z <= 2 ^ 31 - 1.
Proof.
  unfold Int.in_range, Int.min_signed, Int.max_signed.
  rewrite andb_true_iff, !Z.leb_le. reflexivity.
Qed.

(** The rectangle the render phase gives an object of the wall size whose
    position is a pair of integers. *)
Lemma rect_of_wall x y o :
  Position o = (Double.of_int x, Double.of_int y) ->
  Size o = pos_of_ints 64 512 ->
  Z.abs x < 2 ^ 31 - 32 -> Z.abs y < 2 ^ 31 - 256 ->
  rect_of o = Some (mkRect (x - 32) (y - 256) 64 512).
Proof.
  intros Hp Hs Hx Hy. unfold rect_of. rewrite Hp, Hs. cbn [fst snd pos_of_ints].
  change (Double.div (Double.of_int 64) (Double.of_int 2))
    with (Double.of_int 32).
  change (Double.div (Double.of_int 512) (Double.of_int 2))
    with (Double.of_int 256).
  rewrite !sub_of_int by lia.
  rewrite !to_int_of_int by (apply in_range_iff; lia).
  reflexivity.
Qed.

(** The rectangle the render phase gives the player when its height is [k]
    halves: defined exactly when the truncated top edge is an [int]. *)
Lemma rect_of_player k p :
  fst (Position p) = Double.of_int 200 ->
  snd (Position p) = Double.dyadic k (-1) ->
  Size p = pos_of_ints 32 32 ->
  Z.abs k < 2 ^ 52 ->
  rect_of p =
  if Int.in_range (Z.quot (k - 32) 2)
  then Some (mkRect 184 (Z.quot (k - 32) 2) 32 32) else None.
Proof.
  intros Hx Hy Hs Hk. unfold rect_of. rewrite Hx, Hy, Hs.
  cbn [fst snd pos_of_ints].
  change (Double.div (Double.of_int 32) (Double.of_int 2))
    with (Double.of_int 16).
  rewrite (sub_of_int 200 16) by lia.
  rewrite (of_int_halves 16) by lia.
  rewrite sub_dyadic by lia.
  rewrite !to_int_of_int by (apply in_range_iff; lia).
  rewrite to_int_halves by lia. cbn [Z.mul Z.sub Z.add Z.opp Pos.add Pos.mul].
  replace (k - 2 * 16) with (k - 32) by lia.
  destruct (Int.in_range (Z.quot (k - 32) 2)); reflexivity.
Qed.

(** ** Where the walls are *)

Lemma placed_eq a b r :
  placed a b -> rect_of a = Some r ->
  b = mkObject (Position a) (Velocity a) (Size a) r.
Proof.
  intros ((Hp & Hv & Hs) & Hr) Hr'. destruct b as [P V S R].
  cbn in *. rewrite Hr' in Hr. congruence.
Qed.

(** One frame on a wall that has been moved [a] times: it has been moved
    [a + 1] times and has the rectangle of its new position, whatever its
    rectangle was. *)
Lemma moved_wall_placed a y w w' :
  Position w = (Double.of_int (832 - a), Double.of_int y) ->
  wall_shape w -> 0 <= a < 2 ^ 30 -> Z.abs y <= 1000 ->
  placed (move_wall w) w' -> w' = wall_aged (a + 1) y.
Proof.
  intros Hp [Hv Hs] Ha Hy Hpl.
  assert (Position (move_wall w) =
          (Double.of_int (831 - a), Double.of_int y)) as Hp'.
  { unfold move_wall, pos_add. cbn [Position]. rewrite Hp, Hv.
    cbn [fst snd pos_of_ints]. rewrite !add_of_int by lia.
    f_equal; f_equal; lia. }
  rewrite (placed_eq _ _ _ Hpl
             (rect_of_wall (831 - a) y (move_wall w) Hp' Hs
                ltac:(lia) ltac:(lia))).
  rewrite Hp'. cbn [move_wall Velocity Size]. rewrite Hv, Hs.
  unfold wall_aged. f_equal; [ f_equal; f_equal; lia | f_equal; lia ].
Qed.

Lemma step_pair a pos ws ws' :
  0 <= a < 2 ^ 30 -> -150 <= pos <= 150 ->
  Forall2 (fun w w' => placed (move_wall w) w')
          (pair_aged (a, pos) ++ ws) ws' ->
  exists rest,
    ws' = pair_aged (a + 1, pos) ++ rest /\
    Forall2 (fun w w' => placed (move_wall w) w') ws rest.
Proof.
  intros Ha Hpos H. cbn [pair_aged fst snd app] in H.
  inversion H as [| w1 w1' l1 l1' Hw1 H1]; subst.
  inversion H1 as [| w2 w2' l2 l2' Hw2 H2]; subst.
  exists l2'. split; [ | exact H2 ].
  apply moved_wall_placed with (a := a) (y := 650 + pos) in Hw1;
    [ | reflexivity | split; reflexivity | lia | lia ].
  apply moved_wall_placed with (a := a) (y := -50 + pos) in Hw2;
    [ | reflexivity | split; reflexivity | lia | lia ].
  subst. reflexivity.
Qed.

Lemma step_walls_of l ws ws' :
  Forall (fun ap => 0 <= fst ap < 2 ^ 30 /\ -150 <= snd ap <= 150) l ->
  Forall2 (fun w w' => placed (move_wall w) w') (walls_of l ++ ws) ws' ->
  exists rest,
    ws' = walls_of (map (fun ap => (fst ap + 1, snd ap)) l) ++ rest /\
    Forall2 (fun w w' => placed (move_wall w) w') ws rest.
Proof.
  revert ws'. induction l as [| [a pos] l IH]; intros ws' Hl H.
  - exists ws'. split; [ reflexivity | exact H ].
  - inversion Hl as [| ? ? [Ha Hpos] Hl']; subst. cbn [fst snd] in Ha, Hpos.
    unfold walls_of in H. cbn [flat_map] in H. rewrite <- app_assoc in H.
    destruct (step_pair a pos _ _ Ha Hpos H) as (rest1 & -> & H1).
    destruct (IH rest1 Hl' H1) as (rest & -> & H2).
    exists rest. split; [ | exact H2 ].
    unfold walls_of. cbn [map flat_map fst snd]. rewrite <- app_assoc.
    reflexivity.
Qed.

Lemma step_spawned e ws' :
  -150 <= rand_pos e <= 150 ->
  Forall2 (fun w w' => placed (move_wall w) w') (spawned_walls e) ws' ->
  ws' = pair_aged (1, rand_pos e).
Proof.
  intros Hpos H. unfold spawned_walls, GetWall in H.
  rewrite !add_of_int in H by lia.
  inversion H as [| w1 w1' l1 l1' Hw1 H1]; subst.
  inversion H1 as [| w2 w2' l2 l2' Hw2 H2]; subst.
  inversion H2; subst.
  apply moved_wall_placed with (a := 0) (y := 650 + rand_pos e) in Hw1;
    [ | reflexivity | split; reflexivity | lia | lia ].
  apply moved_wall_placed with (a := 0) (y := -50 + rand_pos e) in Hw2;
    [ | reflexivity | split; reflexivity | lia | lia ].
  subst. reflexivity.
Qed.

Lemma env_ok_pos e : env_ok e = true -> -150 <= rand_pos e <= 150.
Proof.
  unfold env_ok. rewrite !andb_true_iff, !Z.leb_le. lia.
Qed.

Lemma frame_walls_of e s s' l :
  Walls s = walls_of l ->
  Forall (fun ap => 0 <= fst ap < 2 ^ 30 /\ -150 <= snd ap <= 150) l ->
  env_ok e = true -> frame e s = Some s' ->
  Walls s' = walls_of (history_step (spawn_due s) (rand_pos e) l).
Proof.
  intros Hw Hl Ho Hf. pose proof (frame_walls _ _ _ Hf) as H.
  apply env_ok_pos in Ho. unfold history_step, walls_after_spawn in *.
  rewrite Hw in H. destruct (spawn_due s).
  - destruct (step_walls_of l _ _ Hl H) as (rest & -> & Hrest).
    apply (step_spawned e) in Hrest; [ | exact Ho ]. subst rest.
    unfold walls_of. rewrite flat_map_app. cbn [flat_map].
    rewrite app_nil_r. reflexivity.
  - rewrite <- (app_nil_r (walls_of l)) in H.
    destruct (step_walls_of l _ _ Hl H) as (rest & -> & Hrest).
    inversion Hrest; subst. rewrite !app_nil_r. reflexivity.
Qed.

Lemma history_ok_step n spawn pos l :
  history_ok n l -> -150 <= pos <= 150 -> 0 <= n ->
  history_ok (n + 1) (history_step spawn pos l).
Proof.
  intros [Hall Hsort] Hpos Hn. unfold history_step. split.
  - apply Forall_app. split.
    + apply Forall_map. eapply Forall_impl; [ | exact Hall ].
      intros [a p] H. cbn [fst snd] in *. lia.
    + destruct spawn; repeat constructor; cbn [fst snd]; lia.
  - assert (StronglySorted (fun p q => fst q < fst p)
              (map (fun ap => (fst ap + 1, snd ap)) l)) as Hs.
    { induction Hsort as [| ap l Hs IH Hhd]; cbn [map]; constructor.
      - apply IH. inversion Hall; assumption.
      - apply Forall_map. eapply Forall_impl; [ | exact Hhd ].
        intros q Hq. cbn beta iota delta [fst] in *. lia. }
    destruct spawn; [ | rewrite app_nil_r; exact Hs ].
    clear Hsort. revert Hs.
    induction l as [| ap l IH]; cbn [map app]; intros Hs.
    + repeat constructor.
    + inversion Hs as [| ? ? Hs' Hhd]; subst.
      inversion Hall as [| ? ? Hap Hall']; subst.
      constructor; [ apply IH; assumption | ].
      apply Forall_app. split; [ exact Hhd | ].
      repeat constructor. cbn [fst]. lia.
Qed.

Lemma walls_history th tw indet n s :
  frames n (init tw th indet) s -> Z.of_nat n < 2 ^ 30 ->
  exists l, Walls s = walls_of l /\ history_ok (Z.of_nat n) l.
Proof.
  intros Hn. remember (init tw th indet) as s0 eqn:Hs0.
  induction Hn as [s | n s s1 e s2 Hn IH Ha Ho Hf]; intros Hlt.
  - subst s. exists []. split; [ reflexivity | ].
    split; constructor.
  - destruct (IH Hs0 ltac:(lia)) as (l & Hw & Hok).
    exists (history_step (spawn_due s1) (rand_pos e) l). split.
    + apply frame_walls_of; try assumption.
      eapply Forall_impl; [ | apply Hok ].
      intros [a p] H. cbn [fst snd] in *. lia.
    + rewrite Nat2Z.inj_succ. unfold Z.succ.
      apply history_ok_step; [ exact Hok | apply env_ok_pos; exact Ho | lia ].
Qed.

Lemma before_first_spawn_frames :
  frames 60 (init 128 32 zero_rect) before_first_spawn.
Proof.
  change 60%nat with (length (tap_envs 60)). apply run_frames.
  vm_compute. reflexivity.
Qed.

Lemma after_first_spawn_frames :
  frames 61 (init 128 32 zero_rect) after_first_spawn.
Proof.
  apply (frames_S 60 _ before_first_spawn first_spawn_env).
  - exact before_first_spawn_frames.
  - vm_compute. reflexivity.
  - vm_compute. reflexivity.
  - exact first_spawn_frame.
Qed.

(** X4.  In a run of fewer than 2^30 frames every wall is where its age puts it.
    The wall list is the list of the pairs spawned so far, oldest first; a
    pair spawned [a] frames ago with offset [pos] consists of the wall at
    (832 - a, 650 + pos) followed by the wall at (832 - a, -50 + pos), both
    with velocity (-1, 0), size (64, 512) and the rectangle
    (800 - a, y - 256, 64, 512) of that position; ages are between 1 and the
    number of frames and strictly decrease along the list. *)
Theorem walls_follow_history tw th indet n s :
  frames n (init tw th indet) s -> Z.of_nat n < 2 ^ 30 ->
  exists l,
    Walls s = walls_of l /\ history_ok (Z.of_nat n) l /\
    length (Walls s) = (2 * length l)%nat /\
    Forall (fun w => exists a pos,
                1 <= a <= Z.of_nat n /\ -150 <= pos <= 150 /\
                (w = wall_aged a (650 + pos) \/ w = wall_aged a (-50 + pos)))
           (Walls s).
Proof.
  intros Hn Hlt. destruct (walls_history _ _ _ _ _ Hn Hlt) as (l & Hw & Hok).
  exists l. split; [ exact Hw | ]. split; [ exact Hok | ].
  rewrite Hw. destruct Hok as [Hall _]. clear Hw Hn Hlt. split.
  - induction l as [| ap l IH]; [ reflexivity | ].
    unfold walls_of in *. cbn [flat_map pair_aged app length].
    rewrite IH by (inversion Hall; assumption). lia.
  - induction Hall as [| [a pos] l [Ha Hpos] _ IH]; [ constructor | ].
    unfold walls_of. cbn [flat_map pair_aged app fst snd] in *.
    constructor; [ | constructor; [ | exact IH ] ].
    + exists a, pos. auto.
    + exists a, pos. auto.
Qed.

Lemma walls_follow_history_witness :
  exists l,
    Walls after_first_spawn = walls_of l /\ history_ok 61 l /\
    length (Walls after_first_spawn) = (2 * length l)%nat.
Proof.
  destruct (walls_follow_history 128 32 zero_rect 61 after_first_spawn
              after_first_spawn_frames)
    as (l & Hw & Hok & Hlen & _).
  - vm_compute. reflexivity.
  - exists l. auto.
Defined.

(** ** The player's rectangle, and frames that are defined *)

Lemma rect_of_player_x o r :
  fst (Position o) = Double.of_int 200 -> Size o = pos_of_ints 32 32 ->
  rect_of o = Some r -> rx r = 184 /\ rw r = 32 /\ rh r = 32.
Proof.
  intros Hx Hs. unfold rect_of. rewrite Hx, Hs. cbn [fst snd pos_of_ints].
  change (Double.div (Double.of_int 32) (Double.of_int 2))
    with (Double.of_int 16).
  rewrite (sub_of_int 200 16) by lia.
  rewrite !to_int_of_int by (apply in_range_iff; lia).
  destruct (Double.to_int _); [ | discriminate ].
  intros H. injection H as <-. auto.
Qed.

Lemma physics_inv tw e s :
  game_inv tw s ->
  fst (Position (player_after_physics e s)) = Double.of_int 200 /\
  Size (player_after_physics e s) = pos_of_ints 32 32.
Proof.
  intros (Hx & Hvx & Hsz & _). split.
  - unfold player_after_physics, integrate, pos_add. cbn [Position fst].
    destruct (handle_input_fst (key_up e) (GameLost s) (Player s))
      as (-> & -> & _).
    rewrite Hx, Hvx. reflexivity.
  - rewrite player_after_physics_Size. exact Hsz.
Qed.

(** X5.  After every frame, lost or not, the player's rectangle is at x = 184
    and 32 wide and high.  If the game was not lost when the frame began, the
    player's height is then a whole number [k] of halves and the rectangle's
    y is [(k - 32) / 2] rounded toward zero; if it is still not lost when the
    frame ends, that y lies between -32 and 600. *)
Theorem player_box tw th indet s e s' :
  reachable tw th indet s -> frame e s = Some s' ->
  rx (DestRect (Player s')) = 184 /\
  rw (DestRect (Player s')) = 32 /\ rh (DestRect (Player s')) = 32 /\
  (GameLost s = false ->
   exists k,
     snd (Position (Player s')) = Double.dyadic k (-1) /\
     ry (DestRect (Player s')) = Z.quot (k - 32) 2 /\
     (GameLost s' = false -> -32 <= ry (DestRect (Player s')) <= 600)).
Proof.
  intros Hr Hf.
  pose proof (reachable_inv _ _ _ _ Hr) as Hinv.
  destruct (physics_inv tw e s Hinv) as [Hx Hsz].
  destruct (frame_player _ _ _ Hf) as [Hbody Hrect].
  destruct (rect_of_player_x _ _ Hx Hsz Hrect) as (H1 & H2 & H3).
  repeat split; try assumption.
  intros Hl.
  destruct (reachable_alive _ _ _ _ Hr Hl) as (k & j & Hg & Hk & Hj).
  destruct (physics_grid e s k j Hl Hg Hk Hj) as (k' & j' & Hg' & Hk' & _).
  exists k'. split.
  { destruct Hbody as (Hp & _). rewrite <- Hp. apply Hg'. }
  rewrite (rect_of_player k' _ Hx (proj1 Hg') Hsz) in Hrect by lia.
  destruct (Int.in_range (Z.quot (k' - 32) 2)); [ | discriminate ].
  injection Hrect as Hrect. rewrite <- Hrect. cbn [ry].
  split; [ reflexivity | ].
  intros Hl'. destruct (not_lost_before _ _ _ Hf Hl') as [_ Hband].
  rewrite (out_of_band_grid _ k' Hsz (proj1 Hg')) in Hband by lia.
  apply orb_false_elim in Hband. destruct Hband as [Hlo Hhi].
  apply Z.ltb_ge in Hlo. rewrite Z.gtb_ltb in Hhi. apply Z.ltb_ge in Hhi.
  split.
  - apply Z.quot_le_lower_bound; lia.
  - apply Z.quot_le_upper_bound; lia.
Qed.

Lemma player_box_witness :
  rx (DestRect (Player after_first_spawn)) = 184 /\
  rw (DestRect (Player after_first_spawn)) = 32 /\
  rh (DestRect (Player after_first_spawn)) = 32 /\
  ry (DestRect (Player after_first_spawn)) = 247.
Proof.
  destruct (player_box 128 32 zero_rect before_first_spawn first_spawn_env
              after_first_spawn before_first_spawn_reachable
              first_spawn_frame) as (H1 & H2 & H3 & _).
  split; [ exact H1 | ]. split; [ exact H2 | ]. split; [ exact H3 | ].
  vm_compute. reflexivity.
Defined.

Lemma place_walls_defined ws :
  Forall (fun w => exists r, rect_of w = Some r) ws ->
  exists ws', place_walls ws = Some ws'.
Proof.
  induction 1 as [| w ws [r Hr] _ [ws' IH]]; cbn [place_walls].
  - eexists. reflexivity.
  - unfold place. rewrite Hr, IH. eexists. reflexivity.
Qed.

Lemma render_defined u ws' p' :
  place_walls (Walls u) = Some ws' -> place (Player u) = Some p' ->
  exists s', render u = Some s'.
Proof.
  intros Hw Hp. unfold render. rewrite Hw, Hp.
  destruct (animate _ _ _ _). eexists. reflexivity.
Qed.

Lemma moved_wall_rect a y w :
  Position w = (Double.of_int (832 - a), Double.of_int y) ->
  wall_shape w -> 0 <= a < 2 ^ 30 -> Z.abs y <= 1000 ->
  exists r, rect_of (move_wall w) = Some r.
Proof.
  intros Hp [Hv Hs] Ha Hy. eexists.
  apply (rect_of_wall (831 - a) y); [ | exact Hs | lia | lia ].
  unfold move_wall, pos_add. cbn [Position]. rewrite Hp, Hv.
  cbn [fst snd pos_of_ints]. rewrite !add_of_int by lia.
  f_equal; f_equal; lia.
Qed.

Lemma walls_of_rects n l :
  history_ok n l -> n < 2 ^ 30 ->
  Forall (fun w => exists r, rect_of (move_wall w) = Some r) (walls_of l).
Proof.
  intros [Hall _] Hn.
  induction Hall as [| [a pos] l [Ha Hpos] _ IH]; [ constructor | ].
  unfold walls_of. cbn [flat_map pair_aged app fst snd] in *.
  constructor; [ | constructor; [ | exact IH ] ].
  - apply (moved_wall_rect a (650 + pos));
      [ reflexivity | split; reflexivity | lia | lia ].
  - apply (moved_wall_rect a (-50 + pos));
      [ reflexivity | split; reflexivity | lia | lia ].
Qed.

Lemma spawned_rects e :
  -150 <= rand_pos e <= 150 ->
  Forall (fun w => exists r, rect_of (move_wall w) = Some r) (spawned_walls e).
Proof.
  intros Hpos. unfold spawned_walls, GetWall.
  rewrite !add_of_int by lia.
  constructor; [ | constructor; [ | constructor ] ].
  - apply (moved_wall_rect 0 (650 + rand_pos e));
      [ reflexivity | split; reflexivity | lia | lia ].
  - apply (moved_wall_rect 0 (-50 + rand_pos e));
      [ reflexivity | split; reflexivity | lia | lia ].
Qed.

(** X6.  No cast is out of range while the game is not lost: in a run of fewer
    than 2^30 - 1 frames, a frame that starts with [GameLost] false always
    completes, whatever the key, the quit request, the numbers drawn and the
    contents of unassigned storage. *)
Theorem frame_defined_while_alive tw th indet n s e :
  frames n (init tw th indet) s -> Z.of_nat n < 2 ^ 30 - 1 ->
  GameLost s = false -> env_ok e = true ->
  exists s', frame e s = Some s'.
Proof.
  intros Hn Hlt Hl Ho.
  assert (reachable tw th indet s) as Hr by (exists n; exact Hn).
  destruct (walls_history _ _ _ _ _ Hn ltac:(lia)) as (l & Hw & Hok).
  assert (exists ws', place_walls (Walls (update e s)) = Some ws')
    as [ws' Hws].
  { apply place_walls_defined. rewrite update_Walls. apply Forall_map.
    unfold walls_after_spawn. rewrite Hw.
    pose proof (walls_of_rects _ l Hok ltac:(lia)) as Hold.
    destruct (spawn_due s); [ | exact Hold ].
    apply Forall_app. split; [ exact Hold | ].
    apply spawned_rects, env_ok_pos, Ho. }
  assert (exists p', place (Player (update e s)) = Some p') as [p' Hp'].
  { rewrite update_Player.
    pose proof (reachable_inv _ _ _ _ Hr) as Hinv.
    destruct (physics_inv tw e s Hinv) as [Hx Hsz].
    destruct (reachable_alive _ _ _ _ Hr Hl) as (k & j & Hg & Hk & Hj).
    destruct (physics_grid e s k j Hl Hg Hk Hj) as (k' & j' & Hg' & Hk' & _).
    unfold place.
    rewrite (rect_of_player k' _ Hx (proj1 Hg') Hsz) by lia.
    replace (Int.in_range (Z.quot (k' - 32) 2)) with true.
    - eexists. reflexivity.
    - symmetry. apply in_range_iff. split.
      + apply Z.quot_le_lower_bound; lia.
      + apply Z.quot_le_upper_bound; lia. }
  unfold frame. eapply render_defined; eassumption.
Qed.

Lemma frame_defined_while_alive_witness :
  exists s', frame first_spawn_env before_first_spawn = Some s'.
Proof.
  apply (frame_defined_while_alive 128 32 zero_rect 60).
  - exact before_first_spawn_frames.
  - vm_compute. reflexivity.
  - vm_compute. reflexivity.
  - vm_compute. reflexivity.
Defined.

(** ** When a wall hits the player *)

Lemma hits_wall_aged p py a y :
  DestRect p = mkRect 184 py 32 32 ->
  Z.abs py < 2 ^ 30 -> 0 <= a < 2 ^ 30 -> Z.abs y <= 1000 ->
  (hits p (wall_aged a y) = true <->
   584 < a < 680 /\ y - 256 < py + 32 /\ py < y + 256).
Proof.
  intros Hp Hpy Ha Hy. unfold hits, wall_aged. cbn [DestRect]. rewrite Hp.
  rewrite CheckCollision_spec. cbn [rx ry rw rh].
  rewrite !add_no_overflow by (apply in_range_iff; lia). lia.
Qed.

(** A pair over the player's column leaves a gap of 188 pixels: the 32 high
    player is hit unless its top edge is between 206 + pos and 362 + pos. *)
Lemma hits_pair_aged p py a pos :
  DestRect p = mkRect 184 py 32 32 ->
  -32 <= py <= 600 -> 0 <= a < 2 ^ 30 -> -150 <= pos <= 150 ->
  (existsb (hits p) (pair_aged (a, pos)) = true <->
   584 < a < 680 /\ (py < 206 + pos \/ 362 + pos < py)).
Proof.
  intros Hp Hpy Ha Hpos. cbn [pair_aged existsb fst snd].
  rewrite orb_false_r, orb_true_iff.
  rewrite (hits_wall_aged p py a (650 + pos)) by (try assumption; lia).
  rewrite (hits_wall_aged p py a (-50 + pos)) by (try assumption; lia).
  lia.
Qed.

Lemma hits_walls_of p py n l :
  DestRect p = mkRect 184 py 32 32 -> -32 <= py <= 600 ->
  history_ok n l -> n < 2 ^ 30 ->
  (existsb (hits p) (walls_of l) = true <->
   exists a pos,
     In (a, pos) l /\ 584 < a < 680 /\ (py < 206 + pos \/ 362 + pos < py)).
Proof.
  intros Hp Hpy [Hall _] Hn.
  induction Hall as [| [a pos] l [Ha Hpos] _ IH].
  - cbn. split; [ discriminate | intros (a & pos & [] & _) ].
  - unfold walls_of in *. cbn [flat_map]. rewrite existsb_app, orb_true_iff.
    cbn [fst snd] in Ha, Hpos.
    rewrite (hits_pair_aged p py a pos Hp Hpy) by lia. rewrite IH.
    split.
    + intros [H | (a' & pos' & Hin & H)].
      * exists a, pos. split; [ left; reflexivity | exact H ].
      * exists a', pos'. split; [ right; exact Hin | exact H ].
    + intros (a' & pos' & [Heq | Hin] & H).
      * injection Heq as <- <-. left. exact H.
      * right. exists a', pos'. auto.
Qed.

Lemma alive_player_box tw th indet s0 e0 s :
  reachable tw th indet s0 -> frame e0 s0 = Some s -> GameLost s = false ->
  exists py, DestRect (Player s) = mkRect 184 py 32 32 /\ -32 <= py <= 600.
Proof.
  intros Hr Hf Hl.
  destruct (not_lost_before _ _ _ Hf Hl) as [Hl0 Hband].
  pose proof (reachable_inv _ _ _ _ Hr) as Hinv.
  destruct (physics_inv tw e0 s0 Hinv) as [Hx Hsz].
  destruct (reachable_alive _ _ _ _ Hr Hl0) as (k & j & Hg & Hk & Hj).
  destruct (physics_grid e0 s0 k j Hl0 Hg Hk Hj) as (k' & j' & Hg' & Hk' & _).
  destruct (frame_player _ _ _ Hf) as [_ Hrect].
  rewrite (rect_of_player k' _ Hx (proj1 Hg') Hsz) in Hrect by lia.
  destruct (Int.in_range (Z.quot (k' - 32) 2)); [ | discriminate ].
  injection Hrect as Hrect.
  rewrite (out_of_band_grid _ k' Hsz (proj1 Hg')) in Hband by lia.
  apply orb_false_elim in Hband. destruct Hband as [Hlo Hhi].
  apply Z.ltb_ge in Hlo. rewrite Z.gtb_ltb in Hhi. apply Z.ltb_ge in Hhi.
  exists (Z.quot (k' - 32) 2). split; [ symmetry; exact Hrect | ].
  split.
  - apply Z.quot_le_lower_bound; lia.
  - apply Z.quot_le_upper_bound; lia.
Qed.

(** X7.  The rule of the game, as the code decides it.  In a run of fewer than
    2^30 frames, a frame that starts after at least one other and with the
    game not lost ends lost exactly when (1) the player leaves the band, or
    (2) some pair between 585 and 679 frames old, the ages at which a wall's
    rectangle overlaps the player's column, has its gap elsewhere: the
    player's rectangle, as the previous frame drew it, has its top edge above
    206 + pos or below 362 + pos, or (3) the frame spawns and the storage of a
    new wall holds a rectangle that overlaps the player's. *)
Theorem loss_rule tw th indet n s e :
  frames (S n) (init tw th indet) s -> Z.of_nat (S n) < 2 ^ 30 ->
  GameLost s = false ->
  exists l py,
    Walls s = walls_of l /\ history_ok (Z.of_nat (S n)) l /\
    DestRect (Player s) = mkRect 184 py 32 32 /\ -32 <= py <= 600 /\
    (GameLost (update e s) = true <->
     out_of_band (player_after_physics e s) = true \/
     (exists a pos,
        In (a, pos) l /\ 584 < a < 680 /\
        (py < 206 + pos \/ 362 + pos < py)) \/
     (spawn_due s = true /\
      (CheckCollision (indet_first e) (DestRect (Player s)) = true \/
       CheckCollision (indet_second e) (DestRect (Player s)) = true))).
Proof.
  intros Hn Hlt Hl.
  destruct (walls_history _ _ _ _ _ Hn Hlt) as (l & Hw & Hok).
  inversion Hn as [| n' s0 s1 e0 s2 Hn0 Ha0 Ho0 Hf0]; subst.
  assert (reachable tw th indet s1) as Hr0 by (exists n; exact Hn0).
  destruct (alive_player_box _ _ _ _ _ _ Hr0 Hf0 Hl) as (py & Hbox & Hpy).
  exists l, py. repeat split; try assumption; try apply Hok; try lia.
  - rewrite update_GameLost, lost_after_border_orb, Hl, orb_false_r.
    rewrite existsb_hits_physics.
    unfold walls_after_spawn. rewrite Hw.
    rewrite orb_true_iff.
    intros [Hband | Hhit]; [ left; exact Hband | right ].
    destruct (spawn_due s).
    + rewrite existsb_app, orb_true_iff in Hhit.
      destruct Hhit as [Hold | Hnew].
      * left. apply (hits_walls_of _ py _ l Hbox Hpy Hok Hlt). exact Hold.
      * right. split; [ reflexivity | ].
        cbn [spawned_walls existsb hits GetWall DestRect] in Hnew.
        rewrite orb_false_r, orb_true_iff in Hnew. exact Hnew.
    + left. apply (hits_walls_of _ py _ l Hbox Hpy Hok Hlt). exact Hhit.
  - rewrite update_GameLost, lost_after_border_orb, Hl, orb_false_r.
    rewrite existsb_hits_physics.
    unfold walls_after_spawn. rewrite Hw.
    rewrite orb_true_iff.
    intros [Hband | [Hold | [Hdue Hnew]]].
    + left. exact Hband.
    + right. apply (hits_walls_of _ py _ l Hbox Hpy Hok Hlt) in Hold.
      destruct (spawn_due s); [ | exact Hold ].
      rewrite existsb_app, Hold. reflexivity.
    + right. rewrite Hdue, existsb_app.
      cbn [spawned_walls existsb hits GetWall DestRect].
      rewrite orb_false_r. apply orb_true_iff. right.
      apply orb_true_iff. exact Hnew.
Qed.

Lemma loss_rule_witness :
  exists l py,
    Walls after_first_spawn = walls_of l /\
    DestRect (Player after_first_spawn) = mkRect 184 py 32 32 /\
    (GameLost (update hold_env after_first_spawn) = true <->
     out_of_band (player_after_physics hold_env after_first_spawn) = true \/
     (exists a pos,
        In (a, pos) l /\ 584 < a < 680 /\
        (py < 206 + pos \/ 362 + pos < py)) \/
     (spawn_due after_first_spawn = true /\
      (CheckCollision (indet_first hold_env)
                      (DestRect (Player after_first_spawn)) = true \/
       CheckCollision (indet_second hold_env)
                      (DestRect (Player after_first_spawn)) = true))).
Proof.
  destruct (loss_rule 128 32 zero_rect 60 after_first_spawn hold_env
              after_first_spawn_frames)
    as (l & py & Hw & _ & Hbox & _ & Hrule).
  - vm_compute. reflexivity.
  - vm_compute. reflexivity.
  - exists l, py. auto.
Defined.

(** ** After the loss: free fall, and the cast that ends it *)

Lemma quot2_in_range x :
  Int.in_range (Z.quot x 2) = true -> - 2 ^ 32 - 1 <= x <= 2 ^ 32 - 1.
Proof.
  intros H. apply in_range_iff in H.
  pose proof (Z.quot_rem' x 2) as Hqr.
  pose proof (Z.rem_bound_abs x 2 ltac:(lia)) as Hrem.
  lia.
Qed.

Lemma lost_physics e s :
  GameLost s = true -> player_after_physics e s = integrate (Player s).
Proof. intros Hl. unfold player_after_physics. rewrite Hl. reflexivity. Qed.

(** [m] frames of a lost game: the velocity has grown by [m] halves and the
    height by [m] times the first velocity plus 0 + 1 + ... + (m - 1) halves;
    and [m] cannot exceed 92800, because the player's rectangle must still
    have an [int] for its top edge. *)
Lemma fall_grid tw k1 j1 m s1 s2 :
  frames m s1 s2 -> GameLost s1 = true -> game_inv tw s1 ->
  on_grid (Player s1) k1 j1 -> -50 <= k1 <= 2500 -> -16 <= j1 <= 1300 ->
  Z.of_nat m <= 92800 /\ game_inv tw s2 /\
  exists K,
    on_grid (Player s2) K (j1 + Z.of_nat m) /\
    2 * K = 2 * k1 + 2 * Z.of_nat m * j1 + Z.of_nat m * (Z.of_nat m - 1).
Proof.
  intros Hm Hl Hinv Hg Hk Hj.
  induction Hm as [s | m s t e s2 Hm IH Ha Ho Hf].
  - split; [ cbn; lia | ]. split; [ exact Hinv | ].
    exists k1. cbn [Z.of_nat]. rewrite Z.add_0_r. split; [ exact Hg | lia ].
  - destruct (IH Hl Hinv Hg) as (Hle & Hinvt & K & HgK & HK). clear IH.
    pose proof (lost_frames _ _ _ Hm Hl) as Hlt.
    set (M := Z.of_nat m) in *.
    assert (0 <= M) as HM0 by (subst M; lia).
    assert (Z.abs K < 2 ^ 40) as HKs by nia.
    pose proof (integrate_grid _ _ _ HgK ltac:(lia) ltac:(lia)) as Hg'.
    rewrite <- (lost_physics e t Hlt) in Hg'.
    destruct (physics_inv tw e t Hinvt) as [Hx Hsz].
    destruct (frame_player _ _ _ Hf) as [Hbody Hrect].
    rewrite (rect_of_player (K + (j1 + M)) _ Hx (proj1 Hg') Hsz) in Hrect
      by lia.
    destruct (Int.in_range (Z.quot (K + (j1 + M) - 32) 2)) eqn:Hin;
      [ | discriminate ].
    apply quot2_in_range in Hin.
    rewrite Nat2Z.inj_succ. fold M. unfold Z.succ.
    split; [ nia | ]. split; [ eapply game_inv_frame; eauto | ].
    exists (K + (j1 + M)). split.
    + replace (j1 + (M + 1)) with (j1 + M + 1) by lia.
      eapply same_body_grid; [ exact Hbody | exact Hg' ].
    + lia.
Qed.

(** X8.  Once the game is lost the player is in free fall, and the run ends in
    undefined behaviour before long: after the frame that loses the game, at
    most 92800 further frames complete (about 26 minutes at 60 frames a
    second), because after that the top edge of the player's rectangle,
    [(int)(Position[1] - Size[1] / 2)], no longer fits an [int].  Until then
    the height is the exact quadratic of the frame count. *)
Theorem lost_run_ends tw th indet s e s1 m s2 :
  reachable tw th indet s -> GameLost s = false ->
  frame e s = Some s1 -> GameLost s1 = true -> frames m s1 s2 ->
  Z.of_nat m <= 92800 /\
  exists k1 j1 K,
    on_grid (Player s1) k1 j1 /\
    on_grid (Player s2) K (j1 + Z.of_nat m) /\
    2 * K = 2 * k1 + 2 * Z.of_nat m * j1 + Z.of_nat m * (Z.of_nat m - 1).
Proof.
  intros Hr Hl Hf Hl1 Hm.
  pose proof (reachable_inv _ _ _ _ Hr) as Hinv.
  destruct (reachable_alive _ _ _ _ Hr Hl) as (k & j & Hg & Hk & Hj).
  destruct (physics_grid e s k j Hl Hg Hk Hj)
    as (k1 & j1 & Hg1 & Hk1 & Hj1 & _).
  assert (on_grid (Player s1) k1 j1) as Hg1'
      by (eapply same_body_grid; [ apply (frame_player _ _ _ Hf) | exact Hg1 ]).
  destruct (fall_grid tw k1 j1 m s1 s2 Hm Hl1
              (game_inv_frame _ _ _ _ Hinv Hf) Hg1' ltac:(lia) ltac:(lia))
    as (Hle & _ & K & HgK & HK).
  split; [ exact Hle | ]. exists k1, j1, K. auto.
Qed.

Lemma lost_run_ends_witness :
  (Z.of_nat 34 <= 92800) /\
  exists k1 j1 K,
    on_grid (Player flown_out) k1 j1 /\
    on_grid (Player fallen_back) K (j1 + Z.of_nat 34) /\
    2 * K = 2 * k1 + 2 * Z.of_nat 34 * j1 + Z.of_nat 34 * (Z.of_nat 34 - 1).
Proof.
  apply (lost_run_ends 128 32 zero_rect last_frame_inside hold_env
           flown_out 34 fallen_back).
  - exact last_frame_inside_reachable.
  - vm_compute. reflexivity.
  - exact flown_out_frame.
  - vm_compute. reflexivity.
  - exact fallen_back_frames.
Defined.

(** ** Exact physics while the game is not lost *)

(** X9.  While the game is not lost no rounding occurs in the player's physics:
    the height and the vertical velocity are whole numbers [k] and [j] of
    halves, with -32 <= k <= 1232 and -16 <= j <= 1267, and the update leaves
    them at [k + j] and [j + 1] when the key is up.  With the key held the
    velocity the player had is discarded: the player ends 9 higher
    ([k - 18] halves) with velocity -7.5 ([-15] halves), whatever [j] was. *)
Theorem physics_exact tw th indet s e :
  reachable tw th indet s -> GameLost s = false ->
  exists k j,
    on_grid (Player s) k j /\ -32 <= k <= 1232 /\ -16 <= j <= 1267 /\
    on_grid (player_after_physics e s)
            (if key_up e then k - 18 else k + j)
            (if key_up e then -15 else j + 1) /\
    Double.units (snd (Position (player_after_physics e s))) =
      Some ((if key_up e then k - 18 else k + j) * 2 ^ 1073) /\
    Double.units (snd (Velocity (player_after_physics e s))) =
      Some ((if key_up e then -15 else j + 1) * 2 ^ 1073).
Proof.
  intros Hr Hl.
  destruct (reachable_alive _ _ _ _ Hr Hl) as (k & j & Hg & Hk & Hj).
  destruct (physics_grid e s k j Hl Hg Hk Hj)
    as (k' & j' & Hg' & Hk' & Hj' & _ & Hup & Hno).
  exists k, j. split; [ exact Hg | ]. split; [ exact Hk | ].
  split; [ exact Hj | ].
  assert (k' = (if key_up e then k - 18 else k + j) /\
          j' = (if key_up e then -15 else j + 1)) as [<- <-].
  { destruct (key_up e); [ apply Hup | apply Hno ]; reflexivity. }
  split; [ exact Hg' | ].
  destruct Hg' as [-> ->]. split; apply dyadic_units; lia.
Qed.

Lemma physics_exact_witness :
  exists k j,
    on_grid (Player before_first_spawn) k j /\
    on_grid (player_after_physics hold_env before_first_spawn)
            (k - 18) (-15).
Proof.
  destruct (physics_exact 128 32 zero_rect before_first_spawn hold_env
              before_first_spawn_reachable eq_refl)
    as (k & j & Hg & _ & _ & Hg' & _).
  exists k, j. split; [ exact Hg | exact Hg' ].
Defined.

(** ** Leaving the loop *)


Lemma run_app es1 es2 s :
  run (es1 ++ es2) s =
  match run es1 s with Some t => run es2 t | None => None end.
Proof.
  revert s. induction es1 as [| e es1 IH]; intros s; cbn [app run].
  - reflexivity.
  - destruct (game_active s && env_ok e); [ | reflexivity ].
    destruct (frame e s); [ apply IH | reflexivity ].
Qed.



(** ** The spawn schedule *)

Lemma frame_timer e s s' :
  frame e s = Some s' ->
  GameTime s' = advance_time (GameTime s) /\
  Interval s' =
    (if spawn_due s
     then Single.add (Interval s) (Single.of_int (rand_interval e))
     else Interval s).
Proof.
  unfold frame. intros Hf. apply render_inv in Hf.
  destruct Hf as (_ & _ & _ & _ & Ht & Hi & _). rewrite Ht, Hi.
  unfold update. rewrite wall_loop_spec. auto.
Qed.

(** X11.  When walls are spawned depends on nothing but the intervals drawn: two
    runs that start with the same [GameTime] and [Interval] and draw the same
    intervals have the same [GameTime] and [Interval] afterwards and have
    spawned the same number of walls, whatever the keys, the offsets, the
    storage contents, the player, and whether either game is lost. *)
Theorem spawn_schedule_ignores_play es es' s s' t t' :
  map rand_interval es = map rand_interval es' ->
  GameTime s = GameTime s' -> Interval s = Interval s' ->
  run es s = Some t -> run es' s' = Some t' ->
  GameTime t = GameTime t' /\ Interval t = Interval t' /\
  (length (Walls t) + length (Walls s') =
   length (Walls t') + length (Walls s))%nat.
Proof.
  revert es' s s'. induction es as [| e es IH]; intros [| e' es'] s s';
    cbn [map run]; try discriminate.
  - intros _ Hg Hi H1 H2. injection H1 as <-. injection H2 as <-.
    repeat split; try assumption. lia.
  - intros Hmap Hg Hi.
    injection Hmap as Hr Hmap.
    destruct (game_active s && env_ok e); [ | discriminate ].
    destruct (game_active s' && env_ok e'); [ | discriminate ].
    destruct (frame e s) as [s1 |] eqn:Hf; [ | discriminate ].
    destruct (frame e' s') as [s1' |] eqn:Hf'; [ | discriminate ].
    intros H1 H2.
    destruct (frame_timer _ _ _ Hf) as [Hg1 Hi1].
    destruct (frame_timer _ _ _ Hf') as [Hg1' Hi1'].
    assert (spawn_due s = spawn_due s') as Hdue
        by (unfold spawn_due; rewrite Hg, Hi; reflexivity).
    assert (GameTime s1 = GameTime s1') as Hg2 by congruence.
    assert (Interval s1 = Interval s1') as Hi2
        by (rewrite Hi1, Hi1', Hdue, Hr, Hi; reflexivity).
    destruct (IH es' s1 s1' Hmap Hg2 Hi2 H1 H2) as (Hgt & Hit & Hlen).
    split; [ exact Hgt | ]. split; [ exact Hit | ].
    pose proof (walls_only_grow_length _ _ _ Hf) as Hl1.
    pose proof (walls_only_grow_length _ _ _ Hf') as Hl1'.
    rewrite <- Hdue in Hl1'. lia.
Qed.

Lemma spawn_schedule_ignores_play_witness :
  GameTime flown_out = GameTime (match tapped 36 with
                                 | Some t => t
                                 | None => flown_out
                                 end).
Proof.
  destruct (spawn_schedule_ignores_play
              (repeat hold_env 36) (tap_envs 36)
              (init 128 32 zero_rect) (init 128 32 zero_rect)
              flown_out
              (match tapped 36 with Some t => t | None => flown_out end))
    as (Hg & _).
  - vm_compute. reflexivity.
  - reflexivity.
  - reflexivity.
  - vm_compute. reflexivity.
  - vm_compute. reflexivity.
  - exact Hg.
Defined.

(** ** The animation rectangle for any sheet *)

Lemma frame_anim_rect e s s' :
  frame e s = Some s' ->
  ry (anim s') = ry (anim s) /\ rw (anim s') = rw (anim s) /\
  rh (anim s') = rh (anim s).
Proof.
  unfold frame, render. rewrite (proj1 (proj2 (update_anim e s))).
  destruct (place_walls _); [ | discriminate ].
  destruct (animate _ _ _ _).
  destruct (place _); [ | discriminate ].
  intros H. injection H as <-. cbn. auto.
Qed.

Lemma animate_bounds tw ft ax i :
  0 < tw <= 2 ^ 30 -> 0 <= ft < 5 -> 0 <= ax < tw ->
  ax = i * Int.div tw 4 ->
  let '(ft', ax') := animate tw (Int.div tw 4) ft ax in
  0 <= ft' < 5 /\ 0 <= ax' < tw /\
  (ax' = 0 \/ ax' = ax \/ ax' = (i + 1) * Int.div tw 4).
Proof.
  intros Htw Hft Hax Hi. unfold animate.
  assert (0 <= Int.div tw 4 <= tw) as Hfw.
  { unfold Int.div. split; [ apply Z.quot_pos; lia | ].
    apply Z.quot_le_upper_bound; lia. }
  rewrite (add_no_overflow ft 1) by (apply in_range_iff; lia).
  rewrite (add_no_overflow ax (Int.div tw 4)) by (apply in_range_iff; lia).
  destruct (Z.eqb_spec (ft + 1) 5); [ | lia ].
  destruct (Z.geb_spec (ax + Int.div tw 4) tw); [ lia | ].
  split; [ lia | ]. split; [ lia | ]. right. right. lia.
Qed.

(** X12.  Whatever the width of the player's sheet (positive, at most 2^30), in
    every state of a run the frame counter is between 0 and 4, the offset
    [anim.x] is a multiple of [FrameWidth] that lies inside the sheet,
    0 <= anim.x < TextureWidth, and the rest of [anim] is as initialised:
    y = 0, w = TextureWidth / 4, h = TextureHeight. *)
Theorem animation_stays_in_sheet tw th indet n s :
  0 < tw <= 2 ^ 30 -> frames n (init tw th indet) s ->
  0 <= FrameTime s < 5 /\ 0 <= rx (anim s) < tw /\
  (exists i, rx (anim s) = i * Int.div tw 4) /\
  ry (anim s) = 0 /\ rw (anim s) = Int.div tw 4 /\ rh (anim s) = th.
Proof.
  intros Htw Hn. remember (init tw th indet) as s0 eqn:Hs0.
  assert (TextureWidth s = tw /\ FrameWidth s = Int.div tw 4) as [Htws Hfws].
  { assert (reachable tw th indet s) as Hr by (exists n; subst s0; exact Hn).
    apply reachable_inv in Hr. apply Hr. }
  revert Htws Hfws.
  induction Hn as [s | n s s1 e s2 Hn IH Ha Ho Hf]; intros Htws Hfws.
  - subst s. cbn. repeat split; try lia. exists 0. reflexivity.
  - destruct (frame_animate _ _ _ Hf) as (Han & Htw1 & Hfw1).
    rewrite Htws in Htw1. rewrite Hfws in Hfw1.
    symmetry in Htw1, Hfw1.
    destruct (IH Hs0 Htw1 Hfw1) as (Hft & Hx & (i & Hi) & Hy & Hw & Hh).
    destruct (frame_anim_rect _ _ _ Hf) as (Hy' & Hw' & Hh').
    rewrite Htw1, Hfw1 in Han.
    pose proof (animate_bounds tw (FrameTime s1) (rx (anim s1)) i
                  Htw Hft Hx Hi) as Hb.
    rewrite <- Han in Hb. destruct Hb as (Hb1 & Hb2 & Hb3).
    split; [ exact Hb1 | ]. split; [ exact Hb2 | ].
    split; [ | split; [ congruence | split; congruence ] ].
    destruct Hb3 as [H0 | [Hsame | Hnext]].
    + exists 0. rewrite H0. reflexivity.
    + exists i. congruence.
    + exists (i + 1). exact Hnext.
Qed.

Lemma animation_stays_in_sheet_witness :
  0 <= FrameTime sheet10_after_40 < 5 /\
  0 <= rx (anim sheet10_after_40) < 10 /\
  rw (anim sheet10_after_40) = 2.
Proof.
  destruct (animation_stays_in_sheet 10 32 zero_rect 40 sheet10_after_40)
    as (H1 & H2 & _ & _ & H3 & _).
  - lia.
  - change 40%nat with (length (tap_envs 40)). apply run_frames.
    vm_compute. reflexivity.
  - split; [ exact H1 | ]. split; [ exact H2 | exact H3 ].
Defined.

(** ** The operators of [pos_t] *)

Lemma SFadd_comm prec emax x y : SFadd prec emax x y = SFadd prec emax y x.
Proof.
  destruct x as [sx | sx | | sx mx ex], y as [sy | sy | | sy my ey];
    try reflexivity; try (destruct sx, sy; reflexivity).
  cbn [SFadd]. rewrite (Z.min_comm ey ex). f_equal. apply Z.add_comm.
Qed.

Lemma SFmul_comm prec emax x y : SFmul prec emax x y = SFmul prec emax y x.
Proof.
  destruct x as [sx | sx | | sx mx ex], y as [sy | sy | | sy my ey];
    try reflexivity; try (destruct sx, sy; reflexivity).
  cbn [SFmul]. rewrite (xorb_comm sy sx), (Pos.mul_comm my mx).
  rewrite (Z.add_comm ey ex). reflexivity.
Qed.

Lemma SFsub_add_opp prec emax x y :
  SFsub prec emax x y = SFadd prec emax x (SFopp y).
Proof.
  destruct x as [sx | sx | | sx mx ex], y as [sy | sy | | sy my ey];
    try reflexivity; destruct sx, sy; reflexivity.
Qed.

Lemma shr_1_nonneg mrs : 0 <= shr_m mrs -> 0 <= shr_m (shr_1 mrs).
Proof.
  destruct mrs as [m r t]. cbn [shr_m shr_1].
  destruct m as [| p | p]; [ | destruct p | ]; cbn [shr_m]; lia.
Qed.

Lemma shr_fexp_nonneg prec emax m e l :
  0 <= m -> 0 <= shr_m (fst (shr_fexp prec emax m e l)).
Proof.
  intros Hm. unfold shr_fexp, shr.
  assert (0 <= shr_m (shr_record_of_loc m l)) as H0
      by (destruct l as [| []]; exact Hm).
  destruct (fexp prec emax (Zdigits2 m + e) - e) as [| n | n]; cbn [fst];
    try exact H0.
  rewrite iter_pos_iter.
  apply Pos.iter_invariant; [ intros x Hx; apply shr_1_nonneg, Hx | exact H0 ].
Qed.

Lemma round_nearest_even_nonneg m l : 0 <= m -> 0 <= round_nearest_even m l.
Proof.
  intros Hm. unfold round_nearest_even.
  destruct l as [| []]; try destruct (Z.even m); lia.
Qed.

(** Rounding something that is not negative never gives a NaN. *)
Lemma binary_round_aux_not_nan prec emax s m e l :
  0 <= m -> binary_round_aux prec emax s m e l <> S754_nan.
Proof.
  intros Hm. unfold binary_round_aux.
  pose proof (shr_fexp_nonneg prec emax m e l Hm) as H1.
  destruct (shr_fexp prec emax m e l) as [mrs1 e1]. cbn [fst] in H1.
  pose proof (shr_fexp_nonneg prec emax
                (round_nearest_even (shr_m mrs1) (loc_of_shr_record mrs1))
                e1 loc_Exact
                (round_nearest_even_nonneg _ _ H1)) as H2.
  destruct (shr_fexp prec emax _ e1 loc_Exact) as [mrs2 e2]. cbn [fst] in H2.
  destruct (shr_m mrs2) as [| p | p]; [ discriminate | | lia ].
  destruct (e2 <=? emax - prec); discriminate.
Qed.

Lemma binary_normalize_not_nan prec emax m e :
  binary_normalize prec emax m e false <> S754_nan.
Proof.
  destruct m as [| p | p]; cbn [binary_normalize]; [ discriminate | | ];
    unfold binary_round; destruct (shl_align _ _ _);
    apply binary_round_aux_not_nan; lia.
Qed.

Lemma SFadd_not_nan prec emax x y :
  Double.units x <> None -> Double.units y <> None ->
  SFadd prec emax x y <> S754_nan.
Proof.
  destruct x as [sx | sx | | sx mx ex], y as [sy | sy | | sy my ey];
    cbn [Double.units]; intros Hx Hy; try congruence; cbn [SFadd].
  - destruct sx, sy; discriminate.
  - discriminate.
  - discriminate.
  - apply binary_normalize_not_nan.
Qed.

Lemma SFmul_not_nan prec emax x y :
  Double.units x <> None -> Double.units y <> None ->
  SFmul prec emax x y <> S754_nan.
Proof.
  destruct x as [sx | sx | | sx mx ex], y as [sy | sy | | sy my ey];
    cbn [Double.units]; intros Hx Hy; try congruence; cbn [SFmul];
    try discriminate.
  apply binary_round_aux_not_nan. lia.
Qed.

Lemma units_opp x : Double.units x <> None -> Double.units (SFopp x) <> None.
Proof. destruct x; cbn; congruence. Qed.

Lemma SFeqb_refl x : x <> S754_nan -> SFeqb x x = true.
Proof.
  intros Hx. unfold SFeqb.
  destruct x as [s | s | | s m e]; cbn [SFcompare]; try congruence;
    try (destruct s; reflexivity).
  rewrite Z.compare_refl.
  change (Pos.compare_cont Eq m m) with (m ?= m)%positive.
  rewrite Pos.compare_refl. destruct s; reflexivity.
Qed.

Lemma pos_eq_refl a : no_nan a -> pos_eq a a = true.
Proof.
  intros [H1 H2]. unfold pos_eq. rewrite !SFeqb_refl by assumption.
  reflexivity.
Qed.

(** Multiplying a valid finite double by 1.0 gives it back. *)
Lemma SFmul_one x :
  Double.valid x = true -> Double.units x <> None ->
  Double.mul x (Double.of_int 1) = x.
Proof.
  destruct x as [s | s | | s m e]; cbn [Double.units]; intros Hv Hx;
    try congruence.
  - destruct s; reflexivity.
  - change (Double.of_int 1) with (S754_finite false 4503599627370496 (-52)).
    unfold Double.mul. cbn [SFmul]. rewrite xorb_false_r.
    replace (m * 4503599627370496)%positive with (Double.shiftp m 52).
    + apply (round_aux_exact s m e 52); [ exact Hv | lia ].
    + apply Pos2Z.inj. rewrite shiftp_Z by lia.
      rewrite Pos2Z.inj_mul. reflexivity.
Qed.

(** X13.  The operators of [pos_t] on operands whose coordinates are all
    finite: [+] and the coordinatewise [*] are commutative, [a - b] is
    [a + (-b)], and none of these results has a NaN coordinate, so the two
    sides are also equal for the comparison [==]; [a - a] is (+0, +0);
    and scaling a valid [a] by 1.0 gives [a] back. *)
Theorem pos_operators a b :
  finite_pos a -> finite_pos b ->
  (pos_add a b = pos_add b a /\ no_nan (pos_add a b) /\
   pos_eq (pos_add a b) (pos_add b a) = true) /\
  (pos_mul a b = pos_mul b a /\ no_nan (pos_mul a b) /\
   pos_eq (pos_mul a b) (pos_mul b a) = true) /\
  (pos_sub a b = pos_add a (Double.neg (fst b), Double.neg (snd b)) /\
   no_nan (pos_sub a b) /\
   pos_eq (pos_sub a b)
          (pos_add a (Double.neg (fst b), Double.neg (snd b))) = true) /\
  pos_sub a a = (S754_zero false, S754_zero false) /\
  (valid_pos a -> pos_scale a (Double.of_int 1) = a).
Proof.
  intros [Ha1 Ha2] [Hb1 Hb2].
  assert (pos_add a b = pos_add b a) as Hadd
      by (unfold pos_add, Double.add; f_equal; apply SFadd_comm).
  assert (pos_mul a b = pos_mul b a) as Hmul
      by (unfold pos_mul, Double.mul; f_equal; apply SFmul_comm).
  assert (pos_sub a b = pos_add a (Double.neg (fst b), Double.neg (snd b)))
    as Hsub
      by (unfold pos_sub, pos_add, Double.sub, Double.add, Double.neg;
          cbn [fst snd]; f_equal; apply SFsub_add_opp).
  assert (no_nan (pos_add a b)) as Nadd
      by (split; cbn [pos_add fst snd]; apply SFadd_not_nan; assumption).
  assert (no_nan (pos_mul a b)) as Nmul
      by (split; cbn [pos_mul fst snd]; apply SFmul_not_nan; assumption).
  assert (no_nan (pos_sub a b)) as Nsub.
  { rewrite Hsub. split; cbn [pos_add fst snd]; apply SFadd_not_nan;
      try assumption; apply units_opp; assumption. }
  split; [ split; [ exact Hadd | split; [ exact Nadd | ] ] | ].
  { rewrite <- Hadd. apply pos_eq_refl, Nadd. }
  split; [ split; [ exact Hmul | split; [ exact Nmul | ] ] | ].
  { rewrite <- Hmul. apply pos_eq_refl, Nmul. }
  split; [ split; [ exact Hsub | split; [ exact Nsub | ] ] | ].
  { rewrite <- Hsub. apply pos_eq_refl, Nsub. }
  split.
  - assert (forall x, Double.units x <> None ->
              SFsub Double.prec Double.emax x x = S754_zero false) as H.
    { intros x Hx. destruct x as [sx | sx | | sx mx ex]; cbn in Hx;
        try congruence.
      - destruct sx; reflexivity.
      - cbn [SFsub]. rewrite Z.sub_diag. reflexivity. }
    unfold pos_sub, Double.sub. rewrite !H by assumption. reflexivity.
  - intros [Hv1 Hv2]. unfold pos_scale.
    rewrite !SFmul_one by assumption. destruct a; reflexivity.
Qed.

Lemma pos_operators_witness :
  pos_add (Double.of_int 832, Double.of_int 650)
          (Double.of_int (-1), Double.of_int 0) =
  pos_add (Double.of_int (-1), Double.of_int 0)
          (Double.of_int 832, Double.of_int 650) /\
  pos_sub (Double.of_int 832, Double.of_int 650)
          (Double.of_int 832, Double.of_int 650) =
  (S754_zero false, S754_zero false) /\
  pos_scale (Double.of_int 832, Double.of_int 650) (Double.of_int 1) =
  (Double.of_int 832, Double.of_int 650).
Proof.
  destruct (pos_operators (Double.of_int 832, Double.of_int 650)
                          (Double.of_int (-1), Double.of_int 0))
    as ((Hadd & _) & _ & _ & Hsub & Hscale).
  - split; vm_compute; discriminate.
  - split; vm_compute; discriminate.
  - split; [ exact Hadd | ]. split; [ exact Hsub | ].
    apply Hscale. split; vm_compute; reflexivity.
Defined.

(** ** Start-up: all or nothing *)

Section StartupFacts.

Import String.
Import Startup.
#[local] Open Scope string_scope.

#[local] Ltac run_startup :=
  unfold startup, InitWindows, InitRenderer, LoadTexture, ShowText, check,
    ErrThrow, do, ret, bind, all_ok;
  cbn [init_video create_window create_renderer load_image create_texture
       init_ttf open_font render_text get_error].


(** X14.  Start-up returns exactly when every library result it tests is a
    success (the font itself is never tested, only the text rendered with
    it).  It has then made the seventeen calls of [full_trace] in that
    order: an 800 x 600 window, the renderer, each image loaded, turned into
    a texture and its surface freed, then the text likewise; and it has not
    called [SDL_GetError] or [SDL_Quit]. *)
Theorem startup_returns_iff_all_ok lib :
  (snd (startup lib) = Returned tt <-> all_ok lib = true) /\
  (all_ok lib = true ->
   startup lib = (full_trace, Returned tt) /\
   List.length (fst (startup lib)) = 17%nat /\
   ~ In SDL_Quit (fst (startup lib)) /\
   ~ In SDL_GetError (fst (startup lib))).
Proof.
  destruct lib as [iv cw cr li ct it opf rt ge]. run_startup.
  destruct iv; [ | cbn; split; [ split | ]; discriminate ].
  destruct cw; [ | cbn; split; [ split | ]; discriminate ].
  destruct cr; [ | cbn; split; [ split | ]; discriminate ].
  destruct (li "bg.png"); [ | cbn; split; [ split | ]; discriminate ].
  destruct (ct "bg.png"); [ | cbn; split; [ split | ]; discriminate ].
  destruct (li "ptok.png"); [ | cbn; split; [ split | ]; discriminate ].
  destruct (ct "ptok.png"); [ | cbn; split; [ split | ]; discriminate ].
  destruct (li "pipe.png"); [ | cbn; split; [ split | ]; discriminate ].
  destruct (ct "pipe.png"); [ | cbn; split; [ split | ]; discriminate ].
  destruct it; [ | cbn; split; [ split | ]; discriminate ].
  destruct (rt opf); [ | cbn; split; [ split | ]; discriminate ].
  destruct (ct "You lose!"); [ | cbn; split; [ split | ]; discriminate ].
  cbn. split; [ split; reflexivity | ]. intros _.
  split; [ reflexivity | ]. split; [ reflexivity | ].
  split; intros H; repeat (destruct H as [H | H]; [ discriminate | ]);
    exact H.
Qed.

Lemma startup_returns_iff_all_ok_witness :
  startup willing = (full_trace, Returned tt) /\
  List.length (fst (startup willing)) = 17%nat /\
  ~ In SDL_Quit (fst (startup willing)).
Proof.
  destruct (proj2 (startup_returns_iff_all_ok willing) eq_refl)
    as (H1 & H2 & H3 & _).
  split; [ exact H1 | ]. split; [ exact H2 | exact H3 ].
Defined.



End StartupFacts.
